(** * mr-shuffle: the [unshuf] edge function

    A shallow embedding of [supabase/functions/unshuf/index.ts] and the
    properties of its tile permutation, grid partition and reassembly. *)

From Stdlib Require Import ZArith Lia List QArith Ascii.
From Stdlib Require Import Floats.SpecFloat.
From stdpp Require Import base list strings pretty.

Local Open Scope Z_scope.

(** * Part I: the program *)

(** ** JavaScript numbers

    A JavaScript [number] is an IEEE 754 binary64 value.  Values that the
    program only ever uses as integers (array lengths, loop counters, pixel
    coordinates) are carried as [Z] or [nat]; the one place where a
    fractional value matters, the product of a PRNG draw with the pool
    length, is computed with the binary64 operations of [SpecFloat]. *)

Module Number.

Definition prec : Z := 53.
Definition emax : Z := 1024.

(** The double that represents an integer (exact below [2^53]). *)
Definition of_Z (z : Z) : spec_float := binary_normalize prec emax z 0 false.

(** [a * b] on doubles, rounding to nearest, ties to even. *)
Definition mul (a b : spec_float) : spec_float := SFmul prec emax a b.

(** An integral JavaScript number, as produced by [Math.floor]. *)
Inductive integral : Set :=
| Int (z : Z)
| PosInfinity
| NegInfinity
| NaN.

(** [Math.floor(x)].  [Z.shiftl a e] is [a * 2^e] for [0 <= e] and the
    floor of [a / 2^(-e)] otherwise. *)
Definition floor (x : spec_float) : integral :=
  match x with
  | S754_zero _ => Int 0
  | S754_infinity false => PosInfinity
  | S754_infinity true => NegInfinity
  | S754_nan => NaN
  | S754_finite s m e => Int (Z.shiftl (cond_Zopp s (Zpos m)) e)
  end.

(** [a * b] on integral numbers and infinities, as [totalSquares] needs
    it. *)
Definition integral_mul (a b : integral) : integral :=
  let signed (z : Z) (positive_infinity : bool) :=
    if z =? 0 then NaN
    else if Bool.eqb (0 <? z) positive_infinity then PosInfinity
    else NegInfinity in
  match a, b with
  | Int x, Int y => Int (x * y)
  | NaN, _ | _, NaN => NaN
  | Int x, PosInfinity | PosInfinity, Int x => signed x true
  | Int x, NegInfinity | NegInfinity, Int x => signed x false
  | PosInfinity, PosInfinity | NegInfinity, NegInfinity => PosInfinity
  | PosInfinity, NegInfinity | NegInfinity, PosInfinity => NegInfinity
  end.

(** The doubles [x] with [0 <= x < 1]: what a PRNG of the [seedrandom]
    family returns. *)
Definition unit_interval (x : spec_float) : bool :=
  valid_binary prec emax x
  && SFleb (S754_zero false) x
  && SFltb x (SFone prec emax).

(** [shifted M k mrs]: the record [mrs] holds the non-negative integer
    [M] shifted right by [k] bits, and its round bit is set only when the
    bits shifted out amount to at least half a unit. *)
Definition shifted (M k : Z) (mrs : shr_record) : Prop :=
  0 <= k /\ shr_m mrs = M / 2 ^ k /\
  (shr_r mrs = true -> 2 ^ k <= 2 * (M mod 2 ^ k)).

(** The shift that brings [M * 2^E] into canonical position. *)
Definition first_shift (M : positive) (E : Z) : Z :=
  Z.max (fexp prec emax (Zpos (digits2_pos M) + E) - E) 0.

End Number.

(** ** The seeded generator

    [seedrandom] is imported from a CDN and is not part of the repository.
    It is taken as an interface: [seedrandom seed] creates a generator, and
    every call of the generator returns a double and advances its state. *)

Class Seedrandom := {
  generator : Type;
  seedrandom : string -> generator;
  draw : generator -> spec_float * generator;
}.

(** The state of a generator after [n] calls. *)
Fixpoint draws `{Seedrandom} (n : nat) (g : generator) : generator :=
  match n with
  | O => g
  | S n' => draws n' (snd (draw g))
  end.

(** What the generator is documented to deliver: doubles in [[0, 1)]. *)
Definition unit_draws `{Seedrandom} : Prop :=
  forall g : generator, Number.unit_interval (fst (draw g)) = true.

(** JavaScript arrays hold fewer than [2^32] elements. *)
Definition array_length_limit : Z := 2 ^ 32.

(** The integers up to [Number.MAX_SAFE_INTEGER] in size: sums and
    differences of such integers that are again of that size are exact on
    doubles. *)
Definition safe_integer (z : Z) : Prop := Z.abs z <= 2 ^ 53 - 1.

(** ** Arrays

    An array slot holds [null], nothing at all (a hole left by an
    assignment past the end), or a value. *)

Inductive element (A : Type) : Type :=
| null
| empty
| value (a : A).
Arguments null {A}.
Arguments empty {A}.
Arguments value {A} a.

(** [array[i]] for a number [i]: [None] is [undefined]. *)
Definition array_get {A} (array : list A) (i : Number.integral) : option A :=
  match i with
  | Number.Int z => if 0 <=? z then array !! Z.to_nat z else None
  | _ => None
  end.

(** [array.splice(start, 1)]: a negative [start] counts from the end, and
    nothing is removed when [start] is not below the length. *)
Definition splice1 {A} (array : list A) (start : Number.integral) : list A :=
  let len := Z.of_nat (length array) in
  let actualStart :=
    match start with
    | Number.Int z => if z <? 0 then Z.max (len + z) 0 else Z.min z len
    | Number.PosInfinity => len
    | Number.NegInfinity | Number.NaN => 0
    end in
  delete (Z.to_nat actualStart) array.

(** [array[i] = v]: an assignment past the end extends the array. *)
Definition array_set {A} (array : list (element A)) (i : nat) (v : element A)
  : list (element A) :=
  if decide (i < length array)%nat then <[i := v]> array
  else array ++ replicate (i - length array) empty ++ [v].

(** ** createRange *)

(** [toNumber] on an input whose [typeof] is ["number"]; every caller in
    this file passes numbers. *)
Definition toNumber (input : Z) : Z := input.

(** [toNumber] on an input whose [typeof] is ["string"]: the first four
    tests are passed over.  A string is its sequence of UTF-16 code units;
    [Number], applied to a string, is taken as given. *)
Module Text.

Definition t : Type := list Z.

(** The class [\s]: white space and line terminators. *)
Definition white_space (c : Z) : bool :=
  bool_decide (c ∈ [9; 10; 11; 12; 13; 32; 160; 5760; 8232; 8233; 8239;
                    8287; 12288; 65279])
  || ((8192 <=? c) && (c <=? 8202)).

(** The match of [^\s+], removed. *)
Fixpoint drop_leading (input : t) : t :=
  match input with
  | c :: rest => if white_space c then drop_leading rest else input
  | [] => []
  end.

(** The leftmost match of [\s+$], removed. *)
Fixpoint drop_trailing (input : t) : t :=
  match input with
  | c :: rest => if forallb white_space input then [] else c :: drop_trailing rest
  | [] => []
  end.

(** [input.replace(/^\s+|\s+$/g, "")]. *)
Definition trim (input : t) : t := drop_trailing (drop_leading input).

Definition between (low high c : Z) : bool := (low <=? c) && (c <=? high).

(** [/^0b[01]+$/i.test(input)]. *)
Definition isBinary (input : t) : bool :=
  match input with
  | zero :: b :: (_ :: _) as digits =>
      (zero =? 48) && ((b =? 98) || (b =? 66)) && forallb (between 48 49) digits
  | _ => false
  end.

(** [/^0o[0-7]+$/i.test(input)]. *)
Definition isOctal (input : t) : bool :=
  match input with
  | zero :: o :: (_ :: _) as digits =>
      (zero =? 48) && ((o =? 111) || (o =? 79)) && forallb (between 48 55) digits
  | _ => false
  end.

(** A character of [[0-9a-f]] under the flag [i]. *)
Definition hex_digit (c : Z) : bool :=
  between 48 57 c || between 97 102 c || between 65 70 c.

(** [/^[-+]0x[0-9a-f]+$/i.test(input)]. *)
Definition isSignedHex (input : t) : bool :=
  match input with
  | sign :: zero :: x :: (_ :: _) as digits =>
      ((sign =? 45) || (sign =? 43)) && (zero =? 48)
      && ((x =? 120) || (x =? 88)) && forallb hex_digit digits
  | _ => false
  end.

(** The value of a digit of [parseInt], letters in either case. *)
Definition digit_value (c : Z) : option Z :=
  if between 48 57 c then Some (c - 48)
  else if between 97 122 c then Some (c - 87)
  else if between 65 90 c then Some (c - 55)
  else None.

(** The longest prefix of digits of the radix. *)
Fixpoint digits_prefix (radix : Z) (input : t) : list Z :=
  match input with
  | c :: rest =>
      match digit_value c with
      | Some d => if d <? radix then d :: digits_prefix radix rest else []
      | None => []
      end
  | [] => []
  end.

(** The integer that a list of digits writes in a radix. *)
Definition positional (radix : Z) (digits : list Z) : Z :=
  foldl (fun acc d => acc * radix + d) 0 digits.

(** [parseInt(input, radix)] for an integer radix.  The result is the
    double nearest to the integer read; the language fixes it exactly for
    the radices 2 and 8 that [toNumber] passes. *)
Definition parseInt (input : t) (radix : Z) : spec_float :=
  let input := drop_leading input in
  let '(negative, input) :=
    match input with
    | c :: rest =>
        if c =? 45 then (true, rest)
        else if c =? 43 then (false, rest)
        else (false, input)
    | [] => (false, input)
    end in
  if negb (radix =? 0) && ((radix <? 2) || (36 <? radix)) then S754_nan
  else
    let '(radix, input) :=
      if (radix =? 0) || (radix =? 16) then
        match input with
        | zero :: x :: rest =>
            if (zero =? 48) && ((x =? 120) || (x =? 88)) then (16, rest)
            else (if radix =? 0 then 10 else radix, input)
        | _ => (if radix =? 0 then 10 else radix, input)
        end
      else (radix, input) in
    match digits_prefix radix input with
    | [] => S754_nan
    | digits =>
        let mathInt := positional radix digits in
        if mathInt =? 0 then S754_zero negative
        else Number.of_Z (if negative then - mathInt else mathInt)
    end.

Section ToNumber.
(** [Number(input)] for a string. *)
Variable StringToNumber : t -> spec_float.

Definition toNumber (input : t) : spec_float :=
  let input := trim input in
  let isBinary := isBinary input in
  if isBinary || isOctal input then
    parseInt (drop 2 input) (if isBinary then 2 else 8)
  else if isSignedHex input then S754_nan
  else StringToNumber input.

End ToNumber.

End Text.

(** [Math.ceil(a / b)] on integers, [b <> 0]. *)
Definition ceil_div (a b : Z) : Z := - ((- a) / b).

(** The [while (length--)] loop of [baseRange] with [fromRight = false]:
    [result[++index] = start; start += step].  The numbers are carried as
    integers and the sum is the integer sum, which is the sum of the code
    as long as the values are safe integers; the properties of ranges are
    stated for these. *)
Fixpoint baseRange_fill (length : nat) (start step : Z) : list Z :=
  match length with
  | O => []
  | S length' => start :: baseRange_fill length' (start + step) step
  end.

(** [new Array(length)] throws for a length of [2^32] or more; the
    properties below are stated for lengths under [array_length_limit]. *)
Definition baseRange (start end_ step : Z) (fromRight : bool) : list Z :=
  let length :=
    Z.max (ceil_div (end_ - start) (if step =? 0 then 1 else step)) 0 in
  let filled := baseRange_fill (Z.to_nat length) start step in
  if fromRight then reverse filled else filled.

Definition createRange (start : Z) (end_ step : option Z) : list Z :=
  let start := if start =? 0 then 0 else toNumber start in
  let '(start, end_) :=
    match end_ with
    | None => (0, start)
    | Some e => (start, toNumber e)
    end in
  let step :=
    match step with
    | None => if start <? end_ then 1 else -1
    | Some s => toNumber s
    end in
  baseRange start end_ step false.

(** ** unShuffle *)

(** What a caller may pass where an array is expected. *)
Inductive argument (A : Type) : Type :=
| an_array (array : list A)
| not_an_array.
Arguments an_array {A} array.
Arguments not_an_array {A}.

Section UnShuffle.
Context `{Seedrandom} {A : Type}.

(** The first loop: [shuffledArray.push(null); indexArray.push(i)]. *)
Fixpoint unShuffle_init (n i : nat)
    (shuffledArray : list (element A)) (indexArray : list nat)
  : list (element A) * list nat :=
  match n with
  | O => (shuffledArray, indexArray)
  | S n' => unShuffle_init n' (S i) (shuffledArray ++ [null]) (indexArray ++ [i])
  end.

(** [Math.floor(randomGenerator() * (indexArray.length - 1 - 0 + 1)) + 0]
    for the drawn value [r]; adding 0 changes nothing. *)
Definition randomIndex (r : spec_float) (indexArray : list nat) : Number.integral :=
  Number.floor
    (Number.mul r (Number.of_Z (Z.of_nat (length indexArray) - 1 - 0 + 1))).

(** One iteration of the second loop, for the element [array[i]]. *)
Definition unShuffle_step (array_i : A)
    (st : generator * list nat * list (element A))
  : generator * list nat * list (element A) :=
  let '(randomGenerator, indexArray, shuffledArray) := st in
  let '(r, randomGenerator) := draw randomGenerator in
  let randomIndex := randomIndex r indexArray in
  let index := array_get indexArray randomIndex in
  let indexArray := splice1 indexArray randomIndex in
  let shuffledArray :=
    match index with
    | Some index => array_set shuffledArray index (value array_i)
    | None => shuffledArray (* sets the property "undefined" *)
    end in
  (randomGenerator, indexArray, shuffledArray).

(** The second loop reads [array[0]], [array[1]], ... in order and never
    writes to [array]. *)
Fixpoint unShuffle_loop (array : list A)
    (st : generator * list nat * list (element A))
  : generator * list nat * list (element A) :=
  match array with
  | [] => st
  | array_i :: rest => unShuffle_loop rest (unShuffle_step array_i st)
  end.

(** Both loops, from a given generator; the final generator state is
    kept so that the draws can be counted. *)
Definition unShuffle_run (array : list A) (randomGenerator : generator)
  : generator * list nat * list (element A) :=
  let '(shuffledArray, indexArray) := unShuffle_init (length array) 0 [] [] in
  unShuffle_loop array (randomGenerator, indexArray, shuffledArray).

(** [unShuffle] returns [null] before it creates a generator.  For an
    array the result comes with the generator as the last iteration left
    it: the calls made on the generator are what [unShuffle] does beside
    computing its result. *)
Definition unShuffle (array : argument A) (seed : string)
  : option (generator * list (element A)) :=
  match array with
  | not_an_array => None
  | an_array array =>
      let '(randomGenerator, _, shuffledArray) :=
        unShuffle_run array (seedrandom seed) in
      Some (randomGenerator, shuffledArray)
  end.

End UnShuffle.

(** The state of [unShuffle] between two iterations of its second loop,
    after the elements [done] have been placed: the slots still [null] are
    exactly the pool of remaining indices. *)
Definition permuting {A} (N : nat) (done : list A)
    (indexArray : list nat) (shuffledArray : list (element A)) : Prop :=
  length shuffledArray = N
  /\ NoDup indexArray
  /\ (forall d, d ∈ indexArray -> shuffledArray !! d = Some null)
  /\ shuffledArray ≡ₚ (value <$> done) ++ replicate (length indexArray) null.

(** [result] holds, slot for slot, every value assigned so far in
    [shuffledArray]. *)
Definition agree {A} (shuffledArray : list (element A)) (result : list A) : Prop :=
  length result = length shuffledArray
  /\ forall i x, shuffledArray !! i = Some (value x) -> result !! i = Some x.

(** [f] applied to the value of a slot, if it holds one. *)
Definition element_map {A B} (f : A -> B) (e : element A) : element B :=
  match e with
  | null => null
  | empty => empty
  | value a => value (f a)
  end.

(** [permute(N, seed)]: [unShuffle] applied to the index sequence; what
    the caller gets is the array. *)
Definition permute `{Seedrandom} (N : nat) (seed : string)
  : option (list (element Z)) :=
  snd <$> unShuffle (an_array (createRange 0 (Some (Z.of_nat N)) None)) seed.

(** The same call with the generator it leaves behind. *)
Definition permute_traced `{Seedrandom} (N : nat) (seed : string)
  : option (generator * list (element Z)) :=
  unShuffle (an_array (createRange 0 (Some (Z.of_nat N)) None)) seed.

(** The permutation algorithm as the specification words it: a pool of
    remaining destinations, one draw per source, [result[dest] = source].
    [filler] is what the result holds before a slot is assigned. *)
Section PermuteSpec.
Context `{Seedrandom}.

Definition pick_of (r : spec_float) (remaining_length : nat) : nat :=
  match Number.floor (Number.mul r (Number.of_Z (Z.of_nat remaining_length))) with
  | Number.Int z => Z.to_nat z
  | _ => 0%nat
  end.

Fixpoint permute_spec_loop (sources : list nat) (g : generator)
    (pool : list nat) (result : list Z) : list Z :=
  match sources with
  | [] => result
  | source :: sources' =>
      let '(r, g') := draw g in
      let pick := pick_of r (length pool) in
      let dest := pool !!! pick in
      permute_spec_loop sources' g' (delete pick pool)
        (<[dest := Z.of_nat source]> result)
  end.

Definition permute_spec (filler : Z) (N : nat) (seed : string) : list Z :=
  permute_spec_loop (seq 0 N) (seedrandom seed) (seq 0 N) (replicate N filler).

End PermuteSpec.

(** ** Squares and groups *)

Module Square.
Record t : Set := mk { x : Z; y : Z; width : Z; height : Z }.
End Square.

Module Group.
(** [rows] is the quotient [slices / cols] as a rational, an integer only
    when [cols] divides [slices]; the double that JavaScript stores is the
    one nearest to it, and is that integer when there is one. *)
Record t : Set := mk { slices : Z; cols : Z; rows : Q; x : Z; y : Z }.
End Group.

(** The [for] loop of [getColsInGroup], from index [i] on, over the squares
    [group[i]], [group[i+1]], ...; [cols] is [None] while it is
    [undefined]. *)
Fixpoint getColsInGroup_loop (rest : list Square.t) (i : nat) (cols : option Z) : nat :=
  match rest with
  | [] => i
  | group_i :: rest' =>
      let cols := match cols with None => Square.y group_i | Some c => c end in
      if decide (cols <> Square.y group_i) then i
      else getColsInGroup_loop rest' (S i) (Some cols)
  end.

Definition getColsInGroup (group : list Square.t) : nat :=
  if decide (length group = 1%nat) then 1%nat
  else getColsInGroup_loop group 0 None.

(** [getGroup]; [None] is the [TypeError] of [group[0].x] on an empty
    group.  [cols] is at least 1 for every other group. *)
Definition getGroup (group : list Square.t) : option Group.t :=
  match group with
  | [] => None
  | group_0 :: _ =>
      let cols := Z.of_nat (getColsInGroup group) in
      Some {| Group.slices := Z.of_nat (length group);
              Group.cols := cols;
              Group.rows := (inject_Z (Z.of_nat (length group)) / inject_Z cols)%Q;
              Group.x := Square.x group_0;
              Group.y := Square.y group_0 |}
  end.

(** ** Outcomes of a call *)

Inductive outcome (A : Type) : Type :=
| Returns (a : A)
| Throws
| Diverges.
Arguments Returns {A} a.
Arguments Throws {A}.
Arguments Diverges {A}.

#[global] Instance outcome_bind : MBind outcome := fun A B k o =>
  match o with
  | Returns a => k a
  | Throws => Throws
  | Diverges => Diverges
  end.

(** Runs [f] over a list in order and concatenates what it returns. *)
Fixpoint outcome_flat_map {A B} (f : A -> outcome (list B)) (l : list A)
  : outcome (list B) :=
  match l with
  | [] => Returns []
  | a :: l' =>
      bs ← f a;
      bs' ← outcome_flat_map f l';
      Returns (bs ++ bs')
  end.

(** ** The grid of squares *)

(** [Math.ceil(a / b)] for integers, division by zero included. *)
Definition Math_ceil_div (a b : Z) : Number.integral :=
  if b =? 0 then
    if 0 <? a then Number.PosInfinity
    else if a <? 0 then Number.NegInfinity
    else Number.NaN
  else Number.Int (ceil_div a b).

(** The key [square.width + '-' + square.height]: [pretty] writes an
    integer in decimal, as the conversion of a number to a string does. *)
Definition group_key (square : Square.t) : string :=
  pretty (Square.width square) +:+ "-" +:+ pretty (Square.height square).

(** A string without the separator ['-'] of the group keys. *)
Fixpoint dashless (s : string) : Prop :=
  match s with
  | EmptyString => True
  | String c s' => c <> "-"%char /\ dashless s'
  end.

(** [squareGroups] is an object used as a map from keys to arrays; its
    keys are enumerated in the order of their creation. *)
Definition square_groups : Set := list (string * list Square.t).

(** [if (!squareGroups[key]) squareGroups[key] = [];
     squareGroups[key].push(square)]. *)
Fixpoint squareGroups_push (key : string) (square : Square.t)
    (squareGroups : square_groups) : square_groups :=
  match squareGroups with
  | [] => [(key, [square])]
  | (key', group) :: rest =>
      if decide (key = key') then (key', group ++ [square]) :: rest
      else (key', group) :: squareGroups_push key square rest
  end.

(** [squareGroups[key]], [[]] when there is no such property. *)
Fixpoint squareGroups_get (key : string) (squareGroups : square_groups)
  : list Square.t :=
  match squareGroups with
  | [] => []
  | (key', group) :: rest =>
      if decide (key = key') then group else squareGroups_get key rest
  end.

(** What the first loop maintains: no key twice, no group empty. *)
Definition well_grouped (squareGroups : square_groups) : Prop :=
  NoDup squareGroups.*1 /\ Forall (fun entry => entry.2 <> []) squareGroups.

(** The body of the first loop after the square is built. *)
Definition bucket_step (squareGroups : square_groups) (square : Square.t)
  : square_groups :=
  squareGroups_push (group_key square) square squareGroups.

(** The square built in iteration [i] of the first loop of [imgReverser]. *)
Definition square_at (imageWidth imageHeight squareSideLength squaresPerRow i : Z)
  : Square.t :=
  let row := i / squaresPerRow in
  let x := (i - row * squaresPerRow) * squareSideLength in
  let y := row * squareSideLength in
  {| Square.x := x;
     Square.y := y;
     Square.width :=
       squareSideLength
       - (if x + squareSideLength <=? imageWidth then 0
          else x + squareSideLength - imageWidth);
     Square.height :=
       squareSideLength
       - (if y + squareSideLength <=? imageHeight then 0
          else y + squareSideLength - imageHeight) |}.

(** [n] iterations of the first loop, from [i] on. *)
Fixpoint squareGroups_loop (n : nat) (i : Z)
    (imageWidth imageHeight squareSideLength squaresPerRow : Z)
    (squareGroups : square_groups) : square_groups :=
  match n with
  | O => squareGroups
  | S n' =>
      let square := square_at imageWidth imageHeight squareSideLength squaresPerRow i in
      squareGroups_loop n' (i + 1)
        imageWidth imageHeight squareSideLength squaresPerRow
        (squareGroups_push (group_key square) square squareGroups)
  end.

(** The first loop of [imgReverser].  With a side length of zero the loop
    bound is an infinity or [NaN]: the loop then never ends, or never
    starts. *)
Definition imgReverser_squareGroups (imageWidth imageHeight squareSideLength : Z)
  : outcome square_groups :=
  let totalSquares :=
    Number.integral_mul (Math_ceil_div imageWidth squareSideLength)
                        (Math_ceil_div imageHeight squareSideLength) in
  let squaresPerRow := Math_ceil_div imageWidth squareSideLength in
  match totalSquares, squaresPerRow with
  | Number.Int totalSquares, Number.Int squaresPerRow =>
      Returns (squareGroups_loop (Z.to_nat totalSquares) 0
                 imageWidth imageHeight squareSideLength squaresPerRow [])
  | Number.PosInfinity, _ => Diverges
  | _, _ => Returns []
  end.

(** The squares in the order in which the first loop builds them. *)
Definition squares (imageWidth imageHeight squareSideLength : Z) : list Square.t :=
  let squaresPerRow := ceil_div imageWidth squareSideLength in
  let totalSquares := squaresPerRow * ceil_div imageHeight squareSideLength in
  square_at imageWidth imageHeight squareSideLength squaresPerRow
    <$> seqZ 0 totalSquares.

(** ** The grid as the specification describes it *)

(** The tile at row [r], column [c]. *)
Definition tile (W H S r c : Z) : Square.t :=
  {| Square.x := c * S;
     Square.y := r * S;
     Square.width := Z.min S (W - c * S);
     Square.height := Z.min S (H - r * S) |}.

(** Rows top to bottom, each row left to right. *)
Definition grid (W H S : Z) : list Square.t :=
  r ← seqZ 0 (ceil_div H S); tile W H S r <$> seqZ 0 (ceil_div W S).

(** The pixel [(px, py)] lies in the rectangle of [square]. *)
Definition covers (px py : Z) (square : Square.t) : Prop :=
  Square.x square <= px < Square.x square + Square.width square
  /\ Square.y square <= py < Square.y square + Square.height square.

#[global] Instance covers_dec (px py : Z) (square : Square.t) :
  Decision (covers px py square).
Proof. unfold covers. apply _. Defined.

(** The number of leading squares of [group] whose [y] is [y0]. *)
Fixpoint leading_run (y0 : Z) (group : list Square.t) : nat :=
  match group with
  | [] => 0
  | square :: rest =>
      if decide (Square.y square = y0) then S (leading_run y0 rest) else 0
  end.

(** ** Reassembly *)

(** The arguments of one [context.drawImage(img, sx, sy, sw, sh, dx, dy,
    dw, dh)]; a source coordinate is [None] when it is [NaN]. *)
Record DrawCall : Set := {
  sx : option Z; sy : option Z; sw : Z; sh : Z;
  dx : Z; dy : Z; dw : Z; dh : Z;
}.

(** An array slot read as a number: [null] counts as 0, [undefined] and
    holes as [NaN]. *)
Definition slot_number (slot : option (element Z)) : option Z :=
  match slot with
  | Some (value v) => Some v
  | Some null => Some 0
  | Some empty | None => None
  end.

(** The body of the inner loop of [imgReverser].  [Math.floor(deltaX /
    group.cols)] is the integer quotient, [group.cols] being positive. *)
Definition drawImage_call (deshuffled : list (element Z)) (group : Group.t)
    (index : nat) (square : Square.t) : DrawCall :=
  let source :=
    match slot_number (deshuffled !! index) with
    | Some deltaX =>
        let deltaY := deltaX / Group.cols group in
        let deltaX := (deltaX - deltaY * Group.cols group) * Square.width square in
        let deltaY := deltaY * Square.height square in
        (Some (Group.x group + deltaX), Some (Group.y group + deltaY))
    | None => (None, None)
    end in
  {| sx := fst source; sy := snd source;
     sw := Square.width square; sh := Square.height square;
     dx := Square.x square; dy := Square.y square;
     dw := Square.width square; dh := Square.height square |}.

(** The copy that the specification asks for, for the tile at a raster
    position whose permutation entry is [slot]. *)
Definition copy_block (geometry : Group.t) (tile : Square.t) (slot : Z) : DrawCall :=
  let srcRow := slot / Group.cols geometry in
  let srcCol := slot - srcRow * Group.cols geometry in
  {| sx := Some (Group.x geometry + srcCol * Square.width tile);
     sy := Some (Group.y geometry + srcRow * Square.height tile);
     sw := Square.width tile; sh := Square.height tile;
     dx := Square.x tile; dy := Square.y tile;
     dw := Square.width tile; dh := Square.height tile |}.

(** The rectangle a call writes to, and the rectangle it reads from (none
    when a source coordinate is [NaN]), as squares. *)
Definition dest_rect (call : DrawCall) : Square.t :=
  Square.mk (dx call) (dy call) (dw call) (dh call).

Definition source_rect (call : DrawCall) : option Square.t :=
  match sx call, sy call with
  | Some x, Some y => Some (Square.mk x y (sw call) (sh call))
  | _, _ => None
  end.

(** One iteration of the outer loop: the calls issued for one group. *)
Definition imgReverser_group `{Seedrandom} (stringSeed : string)
    (squareGroup : list Square.t) : outcome (list DrawCall) :=
  let deshuffled :=
    snd <$> unShuffle
      (an_array (createRange 0 (Some (Z.of_nat (length squareGroup))) None))
      stringSeed in
  match getGroup squareGroup, deshuffled with
  | Some group, Some deshuffled =>
      Returns (imap (drawImage_call deshuffled group) squareGroup)
  | _, _ => Throws
  end.

(** ** The request handler *)

(** A parsed JSON value.  An object lists its own properties, each key
    once. *)
#[warnings="-register-all"] Inductive json : Type :=
| JNull
| JBool (b : bool)
| JNumber (x : spec_float)
| JString (s : string)
| JArray (items : list json)
| JObject (properties : list (string * json)).

(** The own property [key] of an object. *)
Fixpoint own_property (key : string) (properties : list (string * json))
  : option json :=
  match properties with
  | [] => None
  | (key', v) :: rest => if decide (key = key') then Some v else own_property key rest
  end.

(** [body.imgURL]: reading a property of [null] throws; [Returns None] is
    [undefined].  The prototypes of strings, arrays, numbers, booleans and
    objects have no property of that name. *)
Definition body_imgURL (body : json) : outcome (option json) :=
  match body with
  | JNull => Throws
  | JObject properties => Returns (own_property "imgURL" properties)
  | _ => Returns None
  end.

(** [!imgURL]. *)
Definition falsy (imgURL : option json) : bool :=
  match imgURL with
  | None | Some JNull | Some (JBool false) | Some (JString EmptyString) => true
  | Some (JNumber (S754_zero _)) | Some (JNumber S754_nan) => true
  | _ => false
  end.

(** Whether [v.toString()] throws: an own property [toString] of a parsed
    object is never callable, and an array converts each of its items. *)
Fixpoint toString_throws (v : json) : bool :=
  match v with
  | JObject properties => bool_decide (is_Some (own_property "toString" properties))
  | JArray items => existsb toString_throws items
  | _ => false
  end.

(** The image library, [https://deno.land/x/canvas], is taken as an
    interface: [loadImage] fetches and decodes, or rejects. *)
Class Canvas := {
  image : Type;
  loadImage : json -> option image;
  image_width : image -> Z;
  image_height : image -> Z;
}.

(** What [canvas.toBuffer("image/png")] encodes: a canvas of the given
    size after the given [drawImage] calls from the source image. *)
Record png `{Canvas} : Type := {
  source : image;
  canvas_width : Z;
  canvas_height : Z;
  calls : list DrawCall;
}.

Definition imgReverser `{Seedrandom} `{Canvas}
    (imageSrcUrl : json) (squareSideLength : Z) (stringSeed : string)
  : outcome png :=
  match loadImage imageSrcUrl with
  | None => Throws
  | Some img =>
      let imageWidth := image_width img in
      let imageHeight := image_height img in
      squareGroups ← imgReverser_squareGroups imageWidth imageHeight squareSideLength;
      calls ← outcome_flat_map
                (fun squareGroup => imgReverser_group stringSeed (snd squareGroup))
                squareGroups;
      Returns {| source := img; canvas_width := imageWidth;
                 canvas_height := imageHeight; calls := calls |}
  end.

Record request : Type := {
  method : string;
  (** [await req.json()], [None] when it rejects. *)
  parsed_body : option json;
}.

Inductive response_body `{Canvas} : Type :=
| text (message : string)
| data (buffer : png).

Record response `{Canvas} : Type := {
  status : Z;
  body : response_body;
  content_type : option string;
}.

(** [new Response(message, { status: 400 })]: a body given as a string
    sets the content type of the answer. *)
Definition bad_request `{Canvas} (message : string) : response :=
  {| status := 400; body := text message;
     content_type := Some "text/plain;charset=UTF-8" |}.

(** The handler passed to [Deno.serve]. *)
Definition handler `{Seedrandom} `{Canvas} (req : request) : outcome response :=
  if negb (String.eqb (method req) "POST") then
    Returns (bad_request "Bad request: Only POST method is allowed")
  else
    match parsed_body req with
    | None => Returns (bad_request "Bad request: request body is not valid JSON")
    | Some body =>
        imgURL ← body_imgURL body;
        match imgURL with
        | Some url =>
            if falsy imgURL then
              Returns (bad_request "Bad request: missing imgURL in request body")
            else if toString_throws url then Throws (* console.log(imgURL.toString()) *)
            else
              buffer ← imgReverser url 200 "stay";
              Returns {| status := 200; body := data buffer;
                         content_type := Some "image/png" |}
        | None => (* undefined *)
            Returns (bad_request "Bad request: missing imgURL in request body")
        end
    end.

(** ** A concrete generator for examples

    A stand-in for the external PRNG: the state counts the draws, a seed
    starts it at its length, and the draws cycle through four doubles of
    the unit interval: 0, 1/2, the double nearest 1/3, and the largest
    double below 1. *)

Definition example_draws : list spec_float :=
  [ S754_zero false;
    S754_finite false 4503599627370496 (-53);
    S754_finite false 6004799503160661 (-54);
    S754_finite false 9007199254740991 (-53) ].

#[global] Instance example_seedrandom : Seedrandom := {|
  generator := nat;
  seedrandom seed := String.length seed;
  draw g := (nth (g mod 4) example_draws (S754_zero false), S g);
|}.

(** A stand-in for the image library: one image of 400 by 300 pixels can
    be loaded, an image being its width and height. *)
#[global] Instance example_canvas : Canvas := {|
  image := Z * Z;
  loadImage url :=
    match url with
    | JString "scrambled.png" => Some (400, 300)
    | _ => None
    end;
  image_width := fst;
  image_height := snd;
|}.

(** *** Examples: a group of four squares, a group whose rows do not come
    out even, and two requests for the same image *)

Definition example_group : list Square.t :=
  [ Square.mk 0 0 200 200; Square.mk 200 0 200 200;
    Square.mk 0 200 200 200; Square.mk 200 200 200 200 ].

Definition uneven_group : list Square.t :=
  [ Square.mk 0 0 200 200; Square.mk 200 0 200 200; Square.mk 0 200 200 200 ].

Definition example_request : request :=
  {| method := "POST";
     parsed_body :=
       Some (JObject [("imgURL", JString "scrambled.png");
                      ("squareSideLength", JNumber (S754_finite false 7036874417766400 (-47)));
                      ("seed", JString "other")]) |}.

Definition plain_request : request :=
  {| method := "POST";
     parsed_body := Some (JObject [("imgURL", JString "scrambled.png")]) |}.

(** * Part II: properties *)

(** ** Binary64 rounding *)

Module NumberFacts.
Import Number.

Lemma digits2_pos_bounds (m : positive) :
  2 ^ (Zpos (digits2_pos m) - 1) <= Zpos m < 2 ^ Zpos (digits2_pos m).
Proof.
  induction m as [m IH|m IH|]; cbn [digits2_pos].
  - rewrite Pos2Z.inj_succ.
    replace (Z.succ (Zpos (digits2_pos m)) - 1) with (Z.succ (Zpos (digits2_pos m) - 1)) by lia.
    rewrite !Z.pow_succ_r by lia. lia.
  - rewrite Pos2Z.inj_succ.
    replace (Z.succ (Zpos (digits2_pos m)) - 1) with (Z.succ (Zpos (digits2_pos m) - 1)) by lia.
    rewrite !Z.pow_succ_r by lia. lia.
  - cbn. lia.
Qed.

Lemma digits2_pos_le (m : positive) (k : Z) :
  Zpos m < 2 ^ k -> Zpos (digits2_pos m) <= k.
Proof.
  intros Hm. pose proof (digits2_pos_bounds m) as [Hlo _].
  destruct (Z.le_gt_cases (Zpos (digits2_pos m)) k) as [|Hgt]; [done|].
  assert (2 ^ k <= 2 ^ (Zpos (digits2_pos m) - 1)) by (apply Z.pow_le_mono_r; lia).
  lia.
Qed.

Lemma digits2_pos_iter_xO (m q : positive) :
  digits2_pos (Pos.iter xO m q) = (digits2_pos m + q)%positive.
Proof.
  induction q as [|q IH] using Pos.peano_ind.
  - cbn. lia.
  - rewrite Pos.iter_succ. cbn [digits2_pos]. rewrite IH. lia.
Qed.

Lemma iter_xO_value (m q : positive) :
  Zpos (Pos.iter xO m q) = Zpos m * 2 ^ Zpos q.
Proof.
  induction q as [|q IH] using Pos.peano_ind.
  - cbn. lia.
  - rewrite Pos.iter_succ, Pos2Z.inj_xO, IH, Pos2Z.inj_succ, Z.pow_succ_r by lia. lia.
Qed.

(** *** Right shifts with round and sticky bits *)

Lemma shr_1_m (mrs : shr_record) :
  0 <= shr_m mrs -> shr_m (shr_1 mrs) = shr_m mrs / 2.
Proof.
  destruct mrs as [[|[p|p|]|p] r s]; cbn [shr_m shr_1]; intros Hm.
  - reflexivity.
  - apply (Z.div_unique _ _ _ 1); lia.
  - apply (Z.div_unique _ _ _ 0); lia.
  - reflexivity.
  - lia.
Qed.

Lemma shr_1_r (mrs : shr_record) :
  0 <= shr_m mrs -> shr_r (shr_1 mrs) = Z.odd (shr_m mrs).
Proof. destruct mrs as [[|[p|p|]|p] r s]; cbn; intros; try reflexivity; lia. Qed.

Lemma shifted_shr_1 (M k : Z) (mrs : shr_record) :
  0 <= M -> shifted M k mrs -> shifted M (k + 1) (shr_1 mrs).
Proof.
  intros HM (Hk & Hm & Hr).
  assert (Hpos : 0 < 2 ^ k) by (apply Z.pow_pos_nonneg; lia).
  assert (Hm0 : 0 <= shr_m mrs) by (rewrite Hm; apply Z.div_pos; lia).
  assert (Hpow : 2 ^ (k + 1) = 2 ^ k * 2) by (rewrite Z.pow_add_r by lia; lia).
  split; [lia|]. split.
  - rewrite shr_1_m, Hm, Hpow by done. rewrite Z.div_div by lia. reflexivity.
  - rewrite shr_1_r by done. intros Hodd.
    rewrite Hpow, Z.rem_mul_r by lia.
    rewrite <- Hm. rewrite Z.odd_spec in Hodd.
    destruct Hodd as [q Hq]. rewrite Hq.
    replace ((2 * q + 1) mod 2) with 1
      by (apply (Z.mod_unique _ _ q); lia).
    pose proof (Z.mod_pos_bound M (2 ^ k) Hpos). lia.
Qed.

Lemma shifted_iter_pos (M : Z) (p : positive) :
  0 <= M -> forall k mrs,
  shifted M k mrs -> shifted M (k + Zpos p) (SpecFloat.iter_pos shr_1 p mrs).
Proof.
  intros HM. induction p as [p IH|p IH|]; intros k mrs Hs; cbn [SpecFloat.iter_pos].
  - replace (k + Zpos p~1) with (k + 1 + Zpos p + Zpos p) by lia.
    apply IH, IH, shifted_shr_1; done.
  - replace (k + Zpos p~0) with (k + Zpos p + Zpos p) by lia.
    apply IH, IH; done.
  - apply shifted_shr_1; done.
Qed.

Lemma shifted_exact (M : Z) :
  shifted M 0 (shr_record_of_loc M loc_Exact).
Proof.
  cbn. unfold shifted; cbn. rewrite Z.div_1_r. split; [lia|]. split; [done|]. discriminate.
Qed.

(** The shift performed by [shr]: by [n] bits when [n] is positive, by
    none otherwise. *)
Lemma shr_exact_spec (M e n : Z) :
  0 <= M ->
  shifted M (Z.max n 0) (fst (shr (shr_record_of_loc M loc_Exact) e n)) /\
  snd (shr (shr_record_of_loc M loc_Exact) e n) = e + Z.max n 0.
Proof.
  intros HM. destruct n as [|p|p]; cbn [shr fst snd].
  - split; [apply shifted_exact|lia].
  - rewrite Z.max_l by lia. split; [|reflexivity].
    apply (shifted_iter_pos M p HM 0), shifted_exact.
  - split; [apply shifted_exact|lia].
Qed.

(** Rounding to nearest never adds more than one unit, and adds it only
    when the round bit is set. *)
Lemma round_nearest_even_cases (mrs : shr_record) :
  let m' := round_nearest_even (shr_m mrs) (loc_of_shr_record mrs) in
  m' = shr_m mrs \/ (m' = shr_m mrs + 1 /\ shr_r mrs = true).
Proof.
  destruct mrs as [m [] []]; cbn; try (by left); try (by right).
  destruct (Z.even m); [by left|by right].
Qed.

(** *** Rounding a positive integer mantissa *)

(** A mantissa already in canonical position is returned unchanged. *)
Lemma binary_round_aux_exact (s : bool) (M : positive) (E : Z) :
  fexp prec emax (Zpos (digits2_pos M) + E) <= E ->
  E <= emax - prec ->
  binary_round_aux prec emax s (Zpos M) E loc_Exact = S754_finite s M E.
Proof.
  intros Hfexp HE. unfold binary_round_aux, shr_fexp. cbn [Zdigits2].
  set (n := fexp prec emax (Zpos (digits2_pos M) + E) - E).
  assert (Hshr : forall mrs, shr mrs E n = (mrs, E)).
  { intros mrs. assert (n <= 0) by (unfold n; lia).
    destruct n; try reflexivity; lia. }
  rewrite Hshr.
  cbn [shr_record_of_loc shr_m loc_of_shr_record round_nearest_even Zdigits2].
  fold n. rewrite Hshr. cbn [shr_m].
  destruct (Z.leb_spec E (emax - prec)); [reflexivity|lia].
Qed.

(** In general the result is at most half a unit of the last place
    above the exact value. *)
Lemma binary_round_aux_upper (s : bool) (M : positive) (E : Z) :
  E + first_shift M E + 1 <= emax - prec ->
  binary_round_aux prec emax s (Zpos M) E loc_Exact = S754_zero s
  \/ exists m3 e3,
      binary_round_aux prec emax s (Zpos M) E loc_Exact = S754_finite s m3 e3
      /\ E + first_shift M E <= e3 <= E + first_shift M E + 1
      /\ Zpos m3 * 2 ^ (e3 - E) <= Zpos M + 2 ^ first_shift M E / 2.
Proof.
  intros Hover. unfold binary_round_aux, shr_fexp. cbn [Zdigits2].
  set (d := Zpos (digits2_pos M)) in *.
  set (n := fexp prec emax (d + E) - E).
  assert (Hk1 : first_shift M E = Z.max n 0) by reflexivity.
  set (k1 := first_shift M E) in *.
  destruct (shr_exact_spec (Zpos M) E n) as [Hs1 He1]; [lia|].
  destruct (shr (shr_record_of_loc (Zpos M) loc_Exact) E n) as [mrs1 e1].
  cbn [fst snd] in Hs1, He1. rewrite <- Hk1 in Hs1, He1.
  destruct Hs1 as (Hk1pos & Hm1 & Hr1).
  assert (Hp1 : 0 < 2 ^ k1) by (apply Z.pow_pos_nonneg; lia).
  pose proof (Z.div_mod (Zpos M) (2 ^ k1)) as Hdm.
  pose proof (Z.mod_pos_bound (Zpos M) (2 ^ k1) Hp1) as Hmod.
  pose proof (digits2_pos_bounds M) as [_ HMd]. fold d in HMd.
  assert (Hkd : d - prec <= k1) by (unfold fexp in n; lia).
  assert (Hm1lt : shr_m mrs1 < 2 ^ prec).
  { rewrite Hm1. apply Z.div_lt_upper_bound; [lia|].
    rewrite <- Z.pow_add_r by (unfold prec; lia).
    eapply Z.lt_le_trans; [exact HMd|]. apply Z.pow_le_mono_r; lia. }
  assert (Hm1pos : 0 <= shr_m mrs1) by (rewrite Hm1; apply Z.div_pos; lia).
  set (m2 := round_nearest_even (shr_m mrs1) (loc_of_shr_record mrs1)).
  assert (Hm2 : 0 <= m2 <= 2 ^ prec /\ m2 * 2 ^ k1 <= Zpos M + 2 ^ k1 / 2).
  { pose proof (round_nearest_even_cases mrs1) as Hc. cbn zeta in Hc. fold m2 in Hc.
    assert (0 <= 2 ^ k1 / 2) by (apply Z.div_pos; lia).
    destruct Hc as [Hc|[Hc Hr]].
    - split; [lia|]. rewrite Hc, Hm1. lia.
    - split; [lia|]. specialize (Hr1 Hr).
      destruct (Z.eq_dec k1 0) as [Hz|Hnz].
      { rewrite Hz in Hr1, Hmod. change (2 ^ 0) with 1 in Hr1, Hmod. lia. }
      assert (Hpow : 2 ^ k1 = 2 * 2 ^ (k1 - 1)).
      { rewrite <- Z.pow_succ_r by lia. f_equal. lia. }
      assert (Hhalf : 2 ^ k1 / 2 = 2 ^ (k1 - 1)).
      { rewrite Hpow. rewrite Z.mul_comm, Z.div_mul by lia. reflexivity. }
      rewrite Hhalf, Hc, Hm1. lia. }
  destruct Hm2 as [Hm2r Hm2b].
  assert (He1min : emin prec emax <= e1) by (unfold fexp in n; lia).
  set (n2 := fexp prec emax (Zdigits2 m2 + e1) - e1).
  assert (Hn2 : n2 <= 1).
  { assert (Zdigits2 m2 <= prec + 1).
    { destruct m2 as [|q|q]; cbn [Zdigits2]; [unfold prec; lia| |lia].
      apply digits2_pos_le. rewrite Z.pow_add_r by (unfold prec; lia). lia. }
    unfold n2, fexp. lia. }
  destruct (shr_exact_spec m2 e1 n2) as [Hs3 He3]; [lia|].
  destruct (shr (shr_record_of_loc m2 loc_Exact) e1 n2) as [mrs3 e3].
  cbn [fst snd] in Hs3, He3.
  destruct Hs3 as (Hk3pos & Hm3 & _).
  set (k3 := Z.max n2 0) in *.
  assert (Hp3 : 0 < 2 ^ k3) by (apply Z.pow_pos_nonneg; lia).
  assert (Hm3le : shr_m mrs3 * 2 ^ k3 <= m2).
  { rewrite Hm3, Z.mul_comm. apply Z.mul_div_le; lia. }
  assert (Hm3pos : 0 <= shr_m mrs3) by (rewrite Hm3; apply Z.div_pos; lia).
  destruct (shr_m mrs3) as [|m3|m3]; [by left| |lia].
  right. exists m3, e3.
  destruct (Z.leb_spec e3 (emax - prec)); [|lia].
  split; [reflexivity|]. split; [lia|].
  replace (e3 - E) with (k3 + k1) by lia.
  rewrite Z.pow_add_r by lia. nia.
Qed.

(** *** Integers and draws as doubles *)

(** An array length is represented exactly, with a 53-bit mantissa. *)
Lemma of_Z_exact (n : Z) :
  1 <= n < 2 ^ 53 ->
  exists (mz : positive) (k : Z),
    of_Z n = S754_finite false mz (- k) /\ Zpos mz = n * 2 ^ k /\ 0 <= k <= 52.
Proof.
  intros Hn. destruct n as [|p|p]; try lia.
  unfold of_Z, binary_normalize, binary_round, shl_align.
  pose proof (digits2_pos_bounds p) as [Hlo Hhi].
  assert (Hd : Zpos (digits2_pos p) <= 53) by (apply digits2_pos_le; lia).
  set (d := Zpos (digits2_pos p)) in *.
  assert (Hf : fexp prec emax (d + 0) = d - 53) by (unfold fexp, emin, prec, emax; lia).
  rewrite Hf.
  destruct (d - 53 - 0) as [|q|q] eqn:Hq; try lia.
  - exists p, 0. rewrite binary_round_aux_exact.
    + split; [reflexivity|]. change (2 ^ 0) with 1. lia.
    + fold d. rewrite Hf. lia.
    + unfold prec, emax. lia.
  - exists (Pos.iter xO p q), (Zpos q).
    rewrite binary_round_aux_exact.
    + split; [f_equal; lia|]. split; [apply iter_xO_value|lia].
    + rewrite digits2_pos_iter_xO, Pos2Z.inj_add. fold d.
      unfold fexp, emin, prec, emax. lia.
    + unfold prec, emax. lia.
Qed.

(** A double in the unit interval is a zero or [m * 2^e] with a mantissa
    of at most 53 bits and an exponent of at most [-53]. *)
Lemma unit_interval_inv (x : spec_float) :
  unit_interval x = true ->
  (exists s, x = S754_zero s)
  \/ exists m e, x = S754_finite false m e /\ Zpos m < 2 ^ 53 /\ -1074 <= e <= -53.
Proof.
  unfold unit_interval. rewrite !andb_true_iff. intros [[Hv Hle] Hlt].
  destruct x as [s|s| |s m e]; try discriminate.
  - left. by exists s.
  - destruct s; try discriminate.
  - destruct s; try discriminate.
    right. exists m, e. split; [reflexivity|].
    cbn [valid_binary] in Hv. unfold bounded, canonical_mantissa in Hv.
    apply andb_true_iff in Hv as [Hc _]. apply Z.eqb_eq in Hc.
    pose proof (digits2_pos_bounds m) as [Hlo Hhi].
    set (d := Zpos (digits2_pos m)) in *. clearbody d.
    assert (Hd : d <= 53 /\ -1074 <= e /\ (d = 53 \/ e = -1074))
      by (unfold fexp, emin, prec, emax in Hc; lia).
    destruct Hd as (Hd & He & Hcan).
    assert (He53 : e <= -53).
    { change (SFone prec emax) with (S754_finite false 4503599627370496 (-52)) in Hlt.
      unfold SFltb, SFcompare in Hlt.
      destruct (Z.compare_spec e (-52)) as [Heq|Hlt'|Hgt]; [|lia|discriminate Hlt].
      rewrite Pos.compare_cont_spec in Hlt. cbn [Pos.switch_Eq] in Hlt.
      match type of Hlt with context [Pos.compare m ?q] =>
        destruct (Pos.compare_spec m q) as [?|Hcmp|?] end;
        [discriminate Hlt| |discriminate Hlt].
      apply Pos2Z.pos_lt_pos in Hcmp.
      destruct Hcan as [->|]; [|lia].
      change (2 ^ (53 - 1)) with (Zpos 4503599627370496) in Hlo. lia. }
    split; [|lia].
    eapply Z.lt_le_trans; [exact Hhi|]. apply Z.pow_le_mono_r; lia.
Qed.

(** *** The scaled draw stays below the length *)

Lemma shiftl_neg_div (a e : Z) : e <= 0 -> Z.shiftl a e = a / 2 ^ (- e).
Proof.
  intros He. rewrite <- (Z.opp_involutive e) at 1.
  rewrite Z.shiftl_opp_r. apply Z.shiftr_div_pow2. lia.
Qed.

(** [Math.floor(r * n)] for a draw [r] in the unit interval and an array
    length [n]: rounding to nearest cannot carry the product up to [n]. *)
Lemma floor_mul_range (r : spec_float) (n : Z) :
  unit_interval r = true ->
  1 <= n < 2 ^ 32 ->
  exists z, floor (mul r (of_Z n)) = Int z /\ 0 <= z < n.
Proof.
  intros Hr Hn.
  destruct (of_Z_exact n) as (mz & k & -> & Hmz & Hk); [lia|].
  destruct (unit_interval_inv r Hr) as [[s ->]|(m & e & -> & Hm & He)].
  { exists 0. split; [reflexivity|lia]. }
  unfold mul, SFmul. cbn [xorb].
  set (M := (m * mz)%positive). set (E := e + - k).
  set (s := - e - 53).
  assert (HA : 0 < 2 ^ k) by (apply Z.pow_pos_nonneg; lia).
  assert (HS : 1 <= 2 ^ s).
  { change 1 with (2 ^ 0). apply Z.pow_le_mono_r; lia. }
  assert (HM : Zpos M = Zpos m * n * 2 ^ k) by (unfold M; rewrite Pos2Z.inj_mul, Hmz; lia).
  assert (HnegE : 2 ^ (- E) = 2 ^ 53 * 2 ^ k * 2 ^ s).
  { replace (- E) with (53 + k + s) by lia. rewrite !Z.pow_add_r by lia. reflexivity. }
  assert (Hgap : Zpos M + n * 2 ^ k * 2 ^ s <= n * 2 ^ (- E)).
  { rewrite HM, HnegE.
    assert (Zpos m + 1 <= 2 ^ 53) by lia.
    assert (Zpos m * (n * 2 ^ k) + (n * 2 ^ k) * 1 <= 2 ^ 53 * (n * 2 ^ k)) by nia.
    assert (0 <= n * 2 ^ k) by nia.
    nia. }
  pose proof (digits2_pos_bounds M) as [Hdlo Hdhi].
  assert (Hd : Zpos (digits2_pos M) <= 85 + k).
  { apply digits2_pos_le. rewrite HM.
    replace (85 + k) with (53 + 32 + k) by lia. rewrite !Z.pow_add_r by lia.
    assert (Zpos m * n < 2 ^ 53 * 2 ^ 32) by nia. nia. }
  set (d := Zpos (digits2_pos M)) in *.
  assert (Hfs : first_shift M E = Z.max (Z.max (d - 53) (-1074 - E)) 0).
  { unfold first_shift, fexp, emin, prec, emax. fold d. lia. }
  assert (Hhalf : 2 ^ first_shift M E / 2 < n * 2 ^ k * 2 ^ s).
  { assert (Hnks : 1 <= n * 2 ^ k * 2 ^ s) by nia.
    destruct (Z.eq_dec (first_shift M E) 0) as [->|Hnz]; [change (2 ^ 0 / 2) with 0; lia|].
    assert (Hfs1 : 1 <= first_shift M E) by lia.
    replace (first_shift M E) with (Z.succ (first_shift M E - 1)) by lia.
    rewrite Z.pow_succ_r, Z.mul_comm, Z.div_mul by lia.
    destruct (Z.le_ge_cases (d - 53) (-1074 - E)) as [Hc|Hc].
    - replace (first_shift M E - 1) with (k + s - 1022) by lia.
      assert (2 ^ (k + s - 1022) < 2 ^ (k + s)) by (apply Z.pow_lt_mono_r; lia).
      rewrite Z.pow_add_r in * by lia. nia.
    - replace (first_shift M E - 1) with (d - 54) in * by lia.
      assert (Hd1 : 2 ^ (d - 1) = 2 ^ (d - 54) * 2 ^ 53).
      { rewrite <- Z.pow_add_r by lia. f_equal. lia. }
      assert (0 < 2 ^ (d - 54)) by (apply Z.pow_pos_nonneg; lia).
      rewrite HnegE in Hgap. nia. }
  destruct (binary_round_aux_upper false M E) as [->|(m3 & e3 & -> & He3 & Hb)].
  { unfold prec, emax. lia. }
  { exists 0. split; [reflexivity|lia]. }
  cbn [floor cond_Zopp]. rewrite shiftl_neg_div by lia.
  eexists; split; [reflexivity|]. split; [apply Z.div_pos; [lia|apply Z.pow_pos_nonneg; lia]|].
  assert (Hp3 : 0 < 2 ^ (- e3)) by (apply Z.pow_pos_nonneg; lia).
  apply Z.div_lt_upper_bound; [done|].
  assert (Hsplit : 2 ^ (- E) = 2 ^ (- e3) * 2 ^ (e3 - E)).
  { rewrite <- Z.pow_add_r by lia. f_equal. lia. }
  assert (0 < 2 ^ (e3 - E)) by (apply Z.pow_pos_nonneg; lia).
  rewrite Hsplit in Hgap. nia.
Qed.

(** The double nearest to 1/3 times 3 is rounded up to 1: the pick is 1,
    where the exact product would give 0. *)
Example floor_mul_rounds_up :
  floor (mul (S754_finite false 6004799503160661 (-54)) (of_Z 3)) = Int 1.
Proof. reflexivity. Qed.

(** The largest double below 1 times the largest array length. *)
Example floor_mul_largest :
  floor (mul (S754_finite false 9007199254740991 (-53)) (of_Z 4294967295))
  = Int 4294967294.
Proof. reflexivity. Qed.

End NumberFacts.

(** ** The permutation *)

Section UnShuffleFacts.
Context `{Seedrandom}.

Lemma unShuffle_init_spec {A} (n i : nat) (shuffledArray : list (element A)) indexArray :
  unShuffle_init n i shuffledArray indexArray
  = (shuffledArray ++ replicate n null, indexArray ++ seq i n).
Proof.
  revert i shuffledArray indexArray.
  induction n as [|n IH]; intros i sh idx; cbn [unShuffle_init replicate seq].
  - by rewrite !app_nil_r.
  - rewrite IH, <- !app_assoc. reflexivity.
Qed.

Lemma createRange_0 (N : nat) :
  createRange 0 (Some (Z.of_nat N)) None = Z.of_nat <$> seq 0 N.
Proof.
  unfold createRange, baseRange, toNumber, ceil_div. cbn [Z.eqb].
  assert (Hfill : forall n start,
    baseRange_fill n (Z.of_nat start) 1 = Z.of_nat <$> seq start n).
  { induction n as [|n IH]; intros start; cbn [baseRange_fill seq fmap list_fmap]; [done|].
    f_equal. rewrite <- IH. f_equal. lia. }
  destruct (Z.ltb_spec 0 (Z.of_nat N)) as [Hpos|Hzero].
  - cbn [Z.eqb]. rewrite Z.div_1_r, Z.sub_0_r, Z.opp_involutive, Z.max_l by lia.
    rewrite Nat2Z.id. apply (Hfill N 0%nat).
  - assert (N = 0%nat) as -> by lia. reflexivity.
Qed.

(** In range, the index read, the splice and the pick of the
    specification are one and the same position. *)
Lemma randomIndex_in_range (r : spec_float) (indexArray : list nat) :
  Number.unit_interval r = true ->
  indexArray <> [] ->
  Z.of_nat (length indexArray) < array_length_limit ->
  let pick := pick_of r (length indexArray) in
  (pick < length indexArray)%nat
  /\ array_get indexArray (randomIndex r indexArray) = indexArray !! pick
  /\ splice1 indexArray (randomIndex r indexArray) = delete pick indexArray.
Proof.
  intros Hr Hne Hlen pick. subst pick. unfold pick_of, randomIndex.
  replace (Z.of_nat (length indexArray) - 1 - 0 + 1)
    with (Z.of_nat (length indexArray)) by lia.
  destruct (NumberFacts.floor_mul_range r (Z.of_nat (length indexArray)) Hr)
    as (z & -> & Hz).
  { destruct indexArray; [done|]. cbn [length] in *. unfold array_length_limit in Hlen. lia. }
  split; [lia|]. unfold array_get, splice1.
  destruct (Z.leb_spec 0 z); [|lia]. destruct (Z.ltb_spec z 0); [lia|].
  split; [reflexivity|]. f_equal. lia.
Qed.

Lemma unShuffle_step_spec {A} (a : A) g (indexArray : list nat) shuffledArray :
  unit_draws ->
  indexArray <> [] ->
  Z.of_nat (length indexArray) < array_length_limit ->
  let pick := pick_of (fst (draw g)) (length indexArray) in
  exists d,
    indexArray !! pick = Some d
    /\ unShuffle_step a (g, indexArray, shuffledArray)
       = (snd (draw g), delete pick indexArray, array_set shuffledArray d (value a)).
Proof.
  intros Hunit Hne Hlen pick.
  destruct (randomIndex_in_range (fst (draw g)) indexArray (Hunit g) Hne Hlen)
    as (Hpick & Hget & Hsplice).
  fold pick in Hpick, Hget, Hsplice.
  destruct (lookup_lt_is_Some_2 indexArray pick Hpick) as [d Hd].
  exists d. split; [done|].
  unfold unShuffle_step. destruct (draw g) as [r g']. cbn [fst snd] in *.
  rewrite Hsplice, Hget, Hd. reflexivity.
Qed.

Lemma permuting_step {A} (N : nat) (done : list A) (a : A) pool sh (pick d : nat) :
  permuting N done pool sh ->
  pool !! pick = Some d ->
  array_set sh d (value a) = <[d := value a]> sh
  /\ permuting N (done ++ [a]) (delete pick pool) (<[d := value a]> sh).
Proof.
  intros (Hlen & Hnd & Hnull & Hperm) Hd.
  assert (Hshd : sh !! d = Some null) by (eapply Hnull, list_elem_of_lookup_2; done).
  assert (Hdlt : (d < length sh)%nat) by (eapply lookup_lt_Some; done).
  assert (Hpool : pool ≡ₚ d :: delete pick pool) by (by apply delete_Permutation).
  split.
  { unfold array_set. destruct (decide (d < length sh)%nat); [done|lia]. }
  split; [by rewrite length_insert|].
  split; [apply (sublist_NoDup _ pool); [done|apply sublist_delete]|].
  split.
  - intros d' Hd'.
    assert (d ∉ delete pick pool).
    { rewrite Hpool in Hnd. by apply NoDup_cons_1_1 in Hnd. }
    rewrite list_lookup_insert_ne by (intros ->; done).
    apply Hnull. rewrite Hpool. by right.
  - rewrite insert_take_drop by done.
    rewrite <- (take_drop_middle sh d null Hshd) in Hperm.
    rewrite (Permutation_length Hpool) in Hperm. cbn [length replicate] in Hperm.
    rewrite <- !Permutation_middle in Hperm. apply Permutation_cons_inv in Hperm.
    rewrite <- Permutation_middle, Hperm, fmap_app. cbn [fmap list_fmap].
    rewrite <- app_assoc. cbn [app]. by rewrite <- Permutation_middle.
Qed.

(** The second loop empties the pool, draws once per element, and
    leaves a rearrangement of the input. *)
Lemma unShuffle_loop_permuting {A} (N : nat) (rest done : list A) g pool sh :
  unit_draws ->
  Z.of_nat N < array_length_limit ->
  permuting N done pool sh ->
  length pool = length rest ->
  exists sh',
    unShuffle_loop rest (g, pool, sh) = (draws (length rest) g, [], sh')
    /\ length sh' = N
    /\ sh' ≡ₚ value <$> (done ++ rest).
Proof.
  intros Hunit HN. revert done g pool sh.
  induction rest as [|a rest IH]; intros done g pool sh Hinv Hlen.
  - destruct pool; [|done]. destruct Hinv as (HlenN & _ & _ & Hperm).
    exists sh. cbn. by rewrite !app_nil_r in *.
  - assert (Hne : pool <> []) by (by destruct pool).
    assert (Hlim : Z.of_nat (length pool) < array_length_limit).
    { destruct Hinv as (HlenN & _ & _ & Hperm). apply Permutation_length in Hperm.
      rewrite length_app, length_replicate in Hperm. lia. }
    destruct (unShuffle_step_spec a g pool sh Hunit Hne Hlim) as (d & Hd & Hstep).
    destruct (permuting_step N done a pool sh _ d Hinv Hd) as [Hset Hinv'].
    cbn [unShuffle_loop]. rewrite Hstep, Hset.
    destruct (IH (done ++ [a]) (snd (draw g)) _ _ Hinv') as (sh' & Hrun & HlenN & Hperm).
    { rewrite length_delete by (eapply mk_is_Some; done). cbn [length] in Hlen. lia. }
    exists sh'. rewrite <- app_assoc in Hperm. done.
Qed.

Lemma permuting_init {A} (N : nat) :
  permuting (A := A) N [] (seq 0 N) (replicate N null).
Proof.
  split; [apply length_replicate|]. split; [apply NoDup_seq|]. split.
  - intros d Hd. apply elem_of_seq in Hd. apply lookup_replicate_2. lia.
  - by rewrite length_seq.
Qed.

Lemma unShuffle_run_spec {A} (array : list A) (g : generator) :
  unit_draws ->
  Z.of_nat (length array) < array_length_limit ->
  exists sh,
    unShuffle_run array g = (draws (length array) g, [], sh)
    /\ length sh = length array
    /\ sh ≡ₚ value <$> array.
Proof.
  intros Hunit Hlen. unfold unShuffle_run. rewrite unShuffle_init_spec. cbn [app].
  apply (unShuffle_loop_permuting (length array) array []); try done.
  - apply permuting_init.
  - apply length_seq.
Qed.

(** Without any assumption on the drawn values, the loop draws once per
    element of the array. *)
Lemma unShuffle_loop_draws {A} (array : list A) g pool sh :
  fst (fst (unShuffle_loop array (g, pool, sh))) = draws (length array) g.
Proof.
  revert g pool sh. induction array as [|a array IH]; intros g pool sh; [done|].
  cbn [unShuffle_loop length draws]. unfold unShuffle_step.
  destruct (draw g) as [r g']. cbn [snd]. apply IH.
Qed.

Lemma unShuffle_run_draws {A} (array : list A) g :
  fst (fst (unShuffle_run array g)) = draws (length array) g.
Proof.
  unfold unShuffle_run. destruct (unShuffle_init _ _ _ _) as [sh idx].
  apply unShuffle_loop_draws.
Qed.

(** What [unShuffle] returns for an array, in terms of its two loops. *)
Lemma unShuffle_array {A} (array : list A) (seed : string) :
  unShuffle (an_array array) seed
  = Some (draws (length array) (seedrandom seed),
          snd (unShuffle_run array (seedrandom seed))).
Proof.
  unfold unShuffle. rewrite <- unShuffle_run_draws.
  by destruct (unShuffle_run array (seedrandom seed)) as [[g pool] sh].
Qed.

Lemma agree_insert {A} (sh : list (element A)) res (d : nat) (a : A) :
  agree sh res -> agree (<[d := value a]> sh) (<[d := a]> res).
Proof.
  intros [Hlen Hval]. split; [by rewrite !length_insert|].
  intros i x Hi. destruct (decide (d = i)) as [->|Hne].
  - assert (i < length sh)%nat.
    { apply lookup_lt_Some in Hi. by rewrite length_insert in Hi. }
    rewrite list_lookup_insert_eq in Hi by done.
    rewrite list_lookup_insert_eq by lia. congruence.
  - rewrite list_lookup_insert_ne in Hi by done.
    rewrite list_lookup_insert_ne by done. by apply Hval.
Qed.

(** The loop of the source and the loop of the specification make the
    same picks from the same pool. *)
Lemma unShuffle_loop_agree (N : nat) (sources : list nat) done g pool sh res :
  unit_draws ->
  Z.of_nat N < array_length_limit ->
  permuting N done pool sh ->
  length pool = length sources ->
  agree sh res ->
  agree (snd (unShuffle_loop (Z.of_nat <$> sources) (g, pool, sh)))
        (permute_spec_loop sources g pool res).
Proof.
  intros Hunit HN. revert done g pool sh res.
  induction sources as [|source sources IH]; intros done g pool sh res Hinv Hlen Hag.
  - done.
  - assert (Hne : pool <> []) by (by destruct pool).
    assert (Hlim : Z.of_nat (length pool) < array_length_limit).
    { destruct Hinv as (HlenN & _ & _ & Hperm). apply Permutation_length in Hperm.
      rewrite length_app, length_replicate in Hperm. lia. }
    destruct (unShuffle_step_spec (Z.of_nat source) g pool sh Hunit Hne Hlim)
      as (d & Hd & Hstep).
    destruct (permuting_step N done (Z.of_nat source) pool sh _ d Hinv Hd) as [Hset Hinv'].
    cbn [fmap list_fmap unShuffle_loop permute_spec_loop].
    rewrite Hstep, Hset. destruct (draw g) as [r g']. cbn [fst snd] in *.
    rewrite (list_lookup_total_correct _ _ _ Hd).
    eapply IH; [exact Hinv'| |by apply agree_insert].
    rewrite length_delete by (eapply mk_is_Some; done). cbn [length] in Hlen. lia.
Qed.

#[local] Instance value_inj {A} : Inj (=) (=) (@value A).
Proof. by intros x y [= ->]. Qed.

Lemma permute_run (N : nat) (seed : string) :
  unit_draws ->
  Z.of_nat N < array_length_limit ->
  exists result,
    permute N seed = Some result
    /\ length result = N
    /\ result ≡ₚ value <$> (Z.of_nat <$> seq 0 N).
Proof.
  intros Hunit HN. unfold permute, unShuffle. rewrite createRange_0.
  destruct (unShuffle_run_spec (Z.of_nat <$> seq 0 N) (seedrandom seed) Hunit)
    as (sh & Hrun & Hlen & Hperm).
  { by rewrite length_fmap, length_seq. }
  exists sh. rewrite Hrun. rewrite length_fmap, length_seq in Hlen. done.
Qed.

(** Every slot of a rearrangement of [[0 .. N-1]] holds one of these
    integers. *)
Lemma permutation_slot (N : nat) (result : list (element Z)) (i : nat) :
  length result = N ->
  result ≡ₚ value <$> (Z.of_nat <$> seq 0 N) ->
  (i < N)%nat ->
  exists v : Z, 0 <= v < Z.of_nat N /\ result !! i = Some (value v).
Proof.
  intros Hlen Hperm Hi.
  destruct (lookup_lt_is_Some_2 result i) as [e He]; [lia|].
  assert (Hin : e ∈ result) by (by eapply list_elem_of_lookup_2).
  rewrite Hperm in Hin.
  apply list_elem_of_fmap in Hin as (v & -> & Hin).
  apply list_elem_of_fmap in Hin as (k & -> & Hin).
  apply elem_of_seq in Hin. exists (Z.of_nat k). split; [lia|done].
Qed.

(** C2: for every length [N] an array can have and every seed, with the
    generator an arbitrary stream of doubles in [[0, 1)], the result of
    [permute(N, seed)] has [N] slots, every integer of [[0, N)] sits in
    exactly one of them, and every slot holds such an integer. *)
Theorem permute_bijection (N : nat) (seed : string) :
  unit_draws ->
  Z.of_nat N < array_length_limit ->
  exists result,
    permute N seed = Some result
    /\ length result = N
    /\ (forall v : Z, 0 <= v < Z.of_nat N ->
          exists i, result !! i = Some (value v)
                    /\ forall j, result !! j = Some (value v) -> j = i)
    /\ (forall i, (i < N)%nat ->
          exists v : Z, 0 <= v < Z.of_nat N /\ result !! i = Some (value v)).
Proof.
  intros Hunit HN.
  destruct (permute_run N seed Hunit HN) as (result & Hrun & Hlen & Hperm).
  assert (Hnd : NoDup result).
  { rewrite Hperm. apply NoDup_fmap_2; [apply _|].
    apply NoDup_fmap_2; [apply Nat2Z.inj'|apply NoDup_seq]. }
  exists result. split; [done|]. split; [done|]. split.
  - intros v Hv.
    assert (Hin : value v ∈ result).
    { rewrite Hperm. apply list_elem_of_fmap_2, list_elem_of_fmap.
      exists (Z.to_nat v). split; [lia|]. apply elem_of_seq. lia. }
    apply list_elem_of_lookup_1 in Hin as [i Hi].
    exists i. split; [done|]. intros j Hj. by eapply NoDup_lookup.
  - intros i Hi. by apply permutation_slot.
Qed.

(** C9: for every seed, [permute(0, seed)] is the empty sequence, computed
    without a draw, and [permute(1, seed)] is [[0]]; the call that returns
    it leaves the generator in the state reached by exactly one draw. *)
Theorem permute_edge_cases (seed : string) :
  unit_draws ->
  permute 0 seed = Some []
  /\ permute_traced 0 seed = Some (seedrandom seed, [])
  /\ permute 1 seed = Some [value 0]
  /\ permute_traced 1 seed = Some (snd (draw (seedrandom seed)), [value 0]).
Proof.
  intros Hunit. split; [reflexivity|]. split; [reflexivity|].
  assert (Hone : permute 1 seed = Some [value 0]).
  { destruct (permute_run 1 seed Hunit) as (result & Hrun & _ & Hperm); [done|].
    apply Permutation_singleton_r in Hperm. by rewrite Hrun, Hperm. }
  split; [exact Hone|].
  unfold permute in Hone. unfold permute_traced.
  rewrite unShuffle_array in Hone |- *.
  cbn [fmap option_fmap option_map snd] in Hone. injection Hone as ->.
  reflexivity.
Qed.

(** C1: for every length [N] an array can have and every seed,
    [permute(N, seed)] returns what the algorithm of the specification
    computes: pool [[0 .. N-1]], and for each source in turn one draw [r],
    [pick = floor(r * pool length)], [dest = pool[pick]], removal of
    position [pick] from the pool, [result[dest] = source]; whatever
    the result held before the assignments. *)
Theorem permute_follows_spec (filler : Z) (N : nat) (seed : string) :
  unit_draws ->
  Z.of_nat N < array_length_limit ->
  permute N seed = Some (value <$> permute_spec filler N seed).
Proof.
  intros Hunit HN.
  destruct (permute_run N seed Hunit HN) as (result & Hrun & Hlen & Hperm).
  rewrite Hrun. f_equal.
  assert (Hag : agree result (permute_spec filler N seed)).
  { unfold permute in Hrun. rewrite createRange_0, unShuffle_array in Hrun.
    injection Hrun as <-. unfold unShuffle_run, permute_spec.
    rewrite unShuffle_init_spec, length_fmap, length_seq. cbn [app].
    eapply (unShuffle_loop_agree N); [done|done|apply permuting_init|done|].
    split; [by rewrite !length_replicate|].
    intros i x Hi. apply lookup_replicate in Hi as [[=] _]. }
  destruct Hag as [Hlen' Hval].
  apply list_eq. intros i. rewrite list_lookup_fmap.
  destruct (result !! i) as [e|] eqn:He.
  - assert (Hin : e ∈ result) by (by eapply list_elem_of_lookup_2).
    rewrite Hperm in Hin. apply list_elem_of_fmap in Hin as (v & -> & _).
    by rewrite (Hval i v He).
  - apply lookup_ge_None in He.
    rewrite (proj2 (lookup_ge_None _ _)) by lia. done.
Qed.

End UnShuffleFacts.

(** *** The permutation on the example generator *)

Lemma example_unit_draws : @unit_draws example_seedrandom.
Proof.
  intros g. cbn [draw example_seedrandom fst].
  assert (Hlt : (g mod 4 < 4)%nat) by (apply Nat.mod_upper_bound; lia).
  destruct (g mod 4)%nat as [|[|[|[|n]]]]; try reflexivity. lia.
Qed.

Example permute_example :
  @permute example_seedrandom 5 "stay"
  = Some [value 0; value 4; value 2; value 1; value 3].
Proof. reflexivity. Qed.

Lemma permute_bijection_witness :
  @unit_draws example_seedrandom
  /\ Z.of_nat 5 < array_length_limit
  /\ exists result,
      @permute example_seedrandom 5 "stay" = Some result
      /\ length result = 5%nat
      /\ (forall v : Z, 0 <= v < Z.of_nat 5 ->
            exists i, result !! i = Some (value v)
                      /\ forall j, result !! j = Some (value v) -> j = i)
      /\ (forall i, (i < 5)%nat ->
            exists v : Z, 0 <= v < Z.of_nat 5 /\ result !! i = Some (value v)).
Proof.
  split; [exact example_unit_draws|]. split; [reflexivity|].
  apply (@permute_bijection example_seedrandom 5 "stay" example_unit_draws).
  reflexivity.
Defined.

Lemma permute_edge_cases_witness :
  @unit_draws example_seedrandom
  /\ @permute example_seedrandom 0 "stay" = Some []
  /\ @permute_traced example_seedrandom 0 "stay"
     = Some (@seedrandom example_seedrandom "stay", [])
  /\ @permute example_seedrandom 1 "stay" = Some [value 0]
  /\ @permute_traced example_seedrandom 1 "stay"
     = Some (snd (@draw example_seedrandom (seedrandom "stay")), [value 0]).
Proof.
  split; [exact example_unit_draws|].
  apply (@permute_edge_cases example_seedrandom "stay" example_unit_draws).
Defined.

Lemma permute_follows_spec_witness :
  @unit_draws example_seedrandom
  /\ Z.of_nat 5 < array_length_limit
  /\ @permute example_seedrandom 5 "stay"
     = Some (value <$> @permute_spec example_seedrandom 7 5 "stay").
Proof.
  split; [exact example_unit_draws|]. split; [reflexivity|].
  apply (@permute_follows_spec example_seedrandom 7 5 "stay" example_unit_draws).
  reflexivity.
Defined.

(** ** Group keys *)

Section KeyFacts.

Lemma pretty_N_char_dashless (x : N) : pretty_N_char x <> "-"%char.
Proof. unfold pretty_N_char. by repeat case_match. Qed.

Lemma pretty_N_go_dashless (x : N) (s : string) :
  dashless s -> s <> "" -> dashless (pretty_N_go x s) /\ pretty_N_go x s <> "".
Proof.
  revert s. induction (N.lt_wf_0 x) as [x _ IH]; intros s Hs Hne.
  assert (x = 0 \/ 0 < x)%N as [->|Hpos] by lia.
  - by rewrite pretty_N_go_0.
  - rewrite pretty_N_go_step by done. apply IH.
    + by apply N.div_lt.
    + split; [apply pretty_N_char_dashless|done].
    + done.
Qed.

Lemma pretty_N_dashless (x : N) : dashless (pretty x) /\ pretty x <> "".
Proof.
  unfold pretty, pretty_N. destruct (decide (x = 0)%N) as [->|Hne].
  - split; [|done]. split; [|done]. discriminate.
  - rewrite pretty_N_go_step by lia. apply pretty_N_go_dashless; [|done].
    split; [apply pretty_N_char_dashless|done].
Qed.

(** The first ['-'] after a dashless prefix is where the prefix ends. *)
Lemma dashless_split (a b p q : string) :
  dashless a -> dashless b ->
  a +:+ "-" +:+ p = b +:+ "-" +:+ q -> a = b /\ p = q.
Proof.
  revert b. induction a as [|c a IH]; intros [|c' b] Ha Hb Heq; cbn in *.
  - by injection Heq.
  - injection Heq as <- _. by destruct Hb.
  - injection Heq as -> _. by destruct Ha.
  - injection Heq as -> Heq. destruct Ha as [_ Ha], Hb as [_ Hb].
    destruct (IH b Ha Hb Heq) as [-> ->]. done.
Qed.

(** A number in a key is a dashless, non-empty run of digits, with a
    ['-'] in front when it is negative. *)
Lemma pretty_Z_shape (z : Z) :
  exists (sign : bool) (digits : string),
    pretty z = (if sign then "-" +:+ digits else digits)
    /\ dashless digits /\ digits <> "".
Proof.
  destruct z as [|p|p]; unfold pretty, pretty_Z.
  - exists false, "0". split; [done|]. split; [|done]. split; [discriminate|done].
  - exists false, (pretty p). split; [done|]. apply (pretty_N_dashless (Npos p)).
  - exists true, (pretty p). split; [done|]. apply (pretty_N_dashless (Npos p)).
Qed.

Lemma key_inj (w1 h1 w2 h2 : Z) :
  pretty w1 +:+ "-" +:+ pretty h1 = pretty w2 +:+ "-" +:+ pretty h2 ->
  w1 = w2 /\ h1 = h2.
Proof.
  intros Heq.
  assert (Hgoal : pretty w1 = pretty w2 /\ pretty h1 = pretty h2).
  { destruct (pretty_Z_shape w1) as (s1 & d1 & Hw1 & Hd1 & Hn1).
    destruct (pretty_Z_shape w2) as (s2 & d2 & Hw2 & Hd2 & Hn2).
    rewrite Hw1, Hw2 in *.
    destruct s1, s2; cbn in Heq.
    - injection Heq as Heq. by destruct (dashless_split _ _ _ _ Hd1 Hd2 Heq) as [-> ->].
    - destruct d2 as [|c d2]; [done|]. injection Heq as <- _. by destruct Hd2.
    - destruct d1 as [|c d1]; [done|]. injection Heq as -> _. by destruct Hd1.
    - by destruct (dashless_split _ _ _ _ Hd1 Hd2 Heq) as [-> ->]. }
  destruct Hgoal as [Hw Hh]. split; by apply (inj pretty).
Qed.

Lemma group_key_inj (s1 s2 : Square.t) :
  group_key s1 = group_key s2 <->
  Square.width s1 = Square.width s2 /\ Square.height s1 = Square.height s2.
Proof.
  unfold group_key. split.
  - apply key_inj.
  - by intros [-> ->].
Qed.

End KeyFacts.

(** ** Bucketing squares by key *)

Section GroupingFacts.

Implicit Types (squareGroups : square_groups) (square : Square.t).

Lemma squareGroups_get_push key key' square squareGroups :
  squareGroups_get key (squareGroups_push key' square squareGroups)
  = if decide (key = key') then squareGroups_get key squareGroups ++ [square]
    else squareGroups_get key squareGroups.
Proof.
  induction squareGroups as [|[k group] rest IH]; cbn [squareGroups_push squareGroups_get].
  - by destruct (decide (key = key')).
  - destruct (decide (key' = k)) as [->|Hne]; cbn [squareGroups_get].
    + by destruct (decide (key = k)).
    + destruct (decide (key = k)) as [->|Hne']; [|done].
      by destruct (decide (k = key')) as [->|].
Qed.

Lemma squareGroups_push_keys key square squareGroups :
  (squareGroups_push key square squareGroups).*1
  = if decide (key ∈ squareGroups.*1) then squareGroups.*1
    else squareGroups.*1 ++ [key].
Proof.
  induction squareGroups as [|[k group] rest IH]; cbn [squareGroups_push fmap list_fmap fst].
  - destruct (decide (key ∈ [])) as [Hin|]; [by apply elem_of_nil in Hin|done].
  - destruct (decide (key = k)) as [->|Hne]; cbn [fmap list_fmap fst].
    + destruct (decide (k ∈ k :: rest.*1)) as [|Hnin]; [done|].
      destruct Hnin. by left.
    + fold (fmap (M := list) (@fst string (list Square.t))). rewrite IH.
      destruct (decide (key ∈ rest.*1)) as [Hin|Hnin].
      * destruct (decide (key ∈ k :: rest.*1)) as [|Hnin]; [done|].
        destruct Hnin. by right.
      * destruct (decide (key ∈ k :: rest.*1)) as [Hin|]; [|done].
        apply elem_of_cons in Hin as [|]; done.
Qed.

Lemma squareGroups_push_concat key square squareGroups :
  concat (squareGroups_push key square squareGroups).*2
  ≡ₚ concat squareGroups.*2 ++ [square].
Proof.
  induction squareGroups as [|[k group] rest IH]; cbn [squareGroups_push fmap list_fmap snd concat].
  - done.
  - destruct (decide (key = k)) as [->|Hne]; cbn [fmap list_fmap snd concat].
    + rewrite <- !app_assoc. apply Permutation_app_head, Permutation_app_comm.
    + fold (fmap (M := list) (@snd string (list Square.t))).
      rewrite IH. by rewrite app_assoc.
Qed.

Lemma well_grouped_push key square squareGroups :
  well_grouped squareGroups ->
  well_grouped (squareGroups_push key square squareGroups).
Proof.
  intros [Hnd Hne]. split.
  - rewrite squareGroups_push_keys. destruct (decide (key ∈ squareGroups.*1)); [done|].
    apply NoDup_app. split; [done|]. split; [|apply NoDup_singleton].
    intros k Hk ->%list_elem_of_singleton. done.
  - clear Hnd. induction Hne as [|[k group] rest Hg Hrest IH]; cbn [squareGroups_push].
    + by repeat constructor.
    + destruct (decide (key = k)); constructor; try done.
      cbn in *. by destruct group.
Qed.

(** In a well-grouped object the array under a key is the one to be found
    there. *)
Lemma well_grouped_elem_of squareGroups key group :
  well_grouped squareGroups ->
  (key, group) ∈ squareGroups
  <-> group <> [] /\ squareGroups_get key squareGroups = group.
Proof.
  intros [Hnd Hne].
  induction squareGroups as [|[k g] rest IH]; cbn [squareGroups_get].
  - split; [intros Hin; by apply elem_of_nil in Hin|]. by intros [? <-].
  - cbn [fmap list_fmap fst] in Hnd. apply NoDup_cons in Hnd as [Hk Hnd].
    apply Forall_cons in Hne as [Hg Hne]. cbn in Hg.
    rewrite elem_of_cons. destruct (decide (key = k)) as [->|Hneq].
    + split.
      * intros [[= <-]|Hin]; [done|].
        destruct Hk. apply list_elem_of_fmap. by exists (k, group).
      * intros [_ <-]. by left.
    + rewrite (IH Hnd Hne). split.
      * intros [[= ? ?]|?]; done.
      * intros ?. by right.
Qed.

Lemma bucket_get key (l : list Square.t) squareGroups :
  squareGroups_get key (foldl bucket_step squareGroups l)
  = squareGroups_get key squareGroups
    ++ filter (fun square => group_key square = key) l.
Proof.
  revert squareGroups. induction l as [|square l IH]; intros squareGroups; cbn [foldl].
  - by rewrite app_nil_r.
  - rewrite IH. unfold bucket_step. rewrite squareGroups_get_push, filter_cons.
    destruct (decide (key = group_key square)) as [->|Hne].
    + rewrite decide_True by done. by rewrite <- app_assoc.
    + by rewrite decide_False by done.
Qed.

Lemma bucket_well_grouped (l : list Square.t) squareGroups :
  well_grouped squareGroups -> well_grouped (foldl bucket_step squareGroups l).
Proof.
  revert squareGroups. induction l as [|square l IH]; intros squareGroups Hwf; [done|].
  cbn [foldl]. by apply IH, well_grouped_push.
Qed.

Lemma bucket_concat (l : list Square.t) squareGroups :
  concat (foldl bucket_step squareGroups l).*2 ≡ₚ concat squareGroups.*2 ++ l.
Proof.
  revert squareGroups. induction l as [|square l IH]; intros squareGroups; cbn [foldl].
  - by rewrite app_nil_r.
  - rewrite IH. unfold bucket_step. rewrite squareGroups_push_concat.
    by rewrite <- app_assoc.
Qed.

Lemma squareGroups_loop_foldl (n : nat) (i W H S perRow : Z) squareGroups :
  squareGroups_loop n i W H S perRow squareGroups
  = foldl bucket_step squareGroups
      (square_at W H S perRow <$> seqZ i (Z.of_nat n)).
Proof.
  revert i squareGroups. induction n as [|n IH]; intros i squareGroups; [done|].
  cbn [squareGroups_loop]. rewrite IH.
  rewrite (seqZ_cons i) by lia. cbn [fmap list_fmap foldl].
  replace (Z.pred (Z.of_nat (Datatypes.S n))) with (Z.of_nat n) by lia.
  by replace (Z.succ i) with (i + 1) by lia.
Qed.

(** The first loop of [imgReverser] for a side length other than zero:
    it returns, and the array under a key holds, in the order of the
    visit, the squares with that key. *)
Lemma imgReverser_squareGroups_spec (W H S : Z) :
  S <> 0 ->
  exists squareGroups,
    imgReverser_squareGroups W H S = Returns squareGroups
    /\ well_grouped squareGroups
    /\ concat squareGroups.*2 ≡ₚ squares W H S
    /\ forall key,
        squareGroups_get key squareGroups
        = filter (fun square => group_key square = key) (squares W H S).
Proof.
  intros HS. unfold imgReverser_squareGroups, Math_ceil_div.
  destruct (Z.eqb_spec S 0) as [|_]; [done|]. cbn [Number.integral_mul].
  eexists. split; [reflexivity|]. rewrite squareGroups_loop_foldl.
  assert (Hseq : forall n, seqZ 0 (Z.of_nat (Z.to_nat n)) = seqZ 0 n).
  { intros n. destruct (Z.le_gt_cases 0 n); [by rewrite Z2Nat.id|].
    rewrite !seqZ_nil; [done|lia|lia]. }
  rewrite Hseq. fold (squares W H S).
  split; [apply bucket_well_grouped; split; constructor|].
  split; [apply bucket_concat|]. intros key. apply bucket_get.
Qed.

End GroupingFacts.

(** ** The grid *)

Section GridFacts.

Lemma ceil_div_bounds (a b : Z) :
  0 < b -> (ceil_div a b - 1) * b < a <= ceil_div a b * b.
Proof.
  intros Hb. unfold ceil_div.
  pose proof (Z.div_mod (- a) b ltac:(lia)) as Hdm.
  pose proof (Z.mod_pos_bound (- a) b Hb) as Hmod. nia.
Qed.

Lemma square_at_tile (W H S C r c : Z) :
  0 <= c < C -> square_at W H S C (r * C + c) = tile W H S r c.
Proof.
  intros Hc. unfold square_at, tile.
  assert (Hrow : (r * C + c) / C = r).
  { symmetry. apply (Z.div_unique _ _ _ c); lia. }
  rewrite Hrow. replace (r * C + c - r * C) with c by lia.
  f_equal.
  - destruct (Z.leb_spec (c * S + S) W); lia.
  - destruct (Z.leb_spec (r * S + S) H); lia.
Qed.

(** Counting up to [R * C] is counting rows, and columns within a row. *)
Lemma fmap_seqZ_rows {A} (f : Z -> A) (R : nat) (C : Z) :
  0 <= C ->
  f <$> seqZ 0 (Z.of_nat R * C)
  = r ← seqZ 0 (Z.of_nat R); (fun c => f (r * C + c)) <$> seqZ 0 C.
Proof.
  intros HC. induction R as [|R IH].
  - done.
  - rewrite seqZ_S, bind_app, bind_singleton, <- IH.
    replace (Z.of_nat (Datatypes.S R) * C) with (Z.of_nat R * C + C) by lia.
    rewrite seqZ_app, fmap_app by lia. f_equal.
    replace (0 + Z.of_nat R * C) with (Z.of_nat R * C + 0) by lia.
    rewrite <- fmap_add_seqZ, <- list_fmap_compose.
    apply list_fmap_ext. intros _ c _. done.
Qed.

Lemma squares_grid (W H S : Z) :
  0 < W -> 0 < S -> squares W H S = grid W H S.
Proof.
  intros HW HS. unfold squares, grid.
  pose proof (ceil_div_bounds W S HS) as HC.
  set (C := ceil_div W S) in *. set (R := ceil_div H S).
  destruct (Z.le_gt_cases R 0) as [HR|HR].
  - rewrite (seqZ_nil 0 (C * R)), (seqZ_nil 0 R) by nia. done.
  - rewrite Z.mul_comm. rewrite <- (Z2Nat.id R) by lia.
    rewrite fmap_seqZ_rows by nia.
    apply list_bind_ext; [|done]. intros r.
    apply list_fmap_ext. intros i c Hc. apply lookup_seqZ in Hc as [-> Hc].
    apply square_at_tile. lia.
Qed.

(** Filtering a grid by a condition on rows and one on columns. *)
Lemma filter_rows_columns {A} (f : Z -> Z -> A)
    (P : A -> Prop) `{!forall a, Decision (P a)}
    (Pr Pc : Z -> Prop) `{!forall r, Decision (Pr r)} `{!forall c, Decision (Pc c)}
    (Rs Cs : list Z) :
  (forall r c, P (f r c) <-> Pr r /\ Pc c) ->
  filter P (r ← Rs; f r <$> Cs) = r ← filter Pr Rs; f r <$> filter Pc Cs.
Proof.
  intros HP.
  assert (Hrow : forall r,
    filter P (f r <$> Cs) = if decide (Pr r) then f r <$> filter Pc Cs else []).
  { intros r. induction Cs as [|c Cs IH]; cbn [fmap list_fmap].
    - by destruct (decide (Pr r)).
    - fold (fmap (M := list) (f r)). rewrite !filter_cons, IH.
      destruct (decide (P (f r c))) as [Hp|Hp]; rewrite HP in Hp.
      + destruct Hp as [Hr Hc]. by rewrite !decide_True by done.
      + destruct (decide (Pr r)) as [Hr|Hr]; [|done].
        rewrite decide_False by tauto. done. }
  induction Rs as [|r Rs IH]; [done|].
  rewrite bind_cons, filter_app, Hrow, IH, filter_cons.
  destruct (decide (Pr r)); [by rewrite bind_cons|done].
Qed.


End GridFacts.

(** ** The partition of the image *)

Section PartitionFacts.

Lemma filter_key_dimensions (w h : Z) (l : list Square.t) :
  filter (fun square => group_key square = pretty w +:+ "-" +:+ pretty h) l
  = filter (fun square => Square.width square = w /\ Square.height square = h) l.
Proof.
  apply list_filter_iff. intros square. unfold group_key. split.
  - apply key_inj.
  - by intros [-> ->].
Qed.

(** Every group is the bucket of the squares that have the width and
    height of its first square. *)
Lemma group_is_bucket (W H S : Z) squareGroups key (group : list Square.t) :
  S <> 0 ->
  imgReverser_squareGroups W H S = Returns squareGroups ->
  (key, group) ∈ squareGroups ->
  group <> []
  /\ exists w h,
      key = pretty w +:+ "-" +:+ pretty h
      /\ group = filter (fun square => Square.width square = w
                                      /\ Square.height square = h)
                       (squares W H S).
Proof.
  intros HS Hrun Hin.
  destruct (imgReverser_squareGroups_spec W H S HS) as (groups & Hrun' & Hwf & _ & Hget).
  rewrite Hrun in Hrun'. injection Hrun' as <-.
  apply (well_grouped_elem_of _ _ _ Hwf) in Hin as [Hne Hgroup].
  rewrite Hget in Hgroup. split; [done|].
  destruct group as [|square0 rest]; [done|].
  assert (Hin : square0 ∈ square0 :: rest) by (by left).
  rewrite <- Hgroup in Hin. apply list_elem_of_filter in Hin as [<- _].
  exists (Square.width square0), (Square.height square0).
  split; [done|]. rewrite <- Hgroup. apply filter_key_dimensions.
Qed.





End PartitionFacts.

(** ** Group geometry *)

Section GeometryFacts.

Lemma getColsInGroup_loop_leading_run (rest : list Square.t) (i : nat) (y0 : Z) :
  getColsInGroup_loop rest i (Some y0) = (i + leading_run y0 rest)%nat.
Proof.
  revert i. induction rest as [|square rest IH]; intros i; cbn [getColsInGroup_loop leading_run].
  - lia.
  - destruct (decide (y0 <> Square.y square)) as [Hne|Heq].
    + rewrite decide_False by congruence. lia.
    + rewrite decide_True by lia.
      rewrite IH. lia.
Qed.

(** [getColsInGroup] counts the squares that share the [y] of the first
    one, up to the first that does not. *)
Lemma getColsInGroup_leading_run (first : Square.t) (rest : list Square.t) :
  getColsInGroup (first :: rest) = leading_run (Square.y first) (first :: rest).
Proof.
  unfold getColsInGroup. cbn [length leading_run getColsInGroup_loop].
  destruct (decide (Square.y first = Square.y first)) as [_|Hne]; [|done].
  destruct (decide (Square.y first <> Square.y first)) as [Hne|_]; [done|].
  destruct (decide (Datatypes.S (length rest) = 1%nat)) as [Hone|Hmore].
  - destruct rest; [done|discriminate].
  - by rewrite getColsInGroup_loop_leading_run.
Qed.

Lemma leading_run_bounds (first : Square.t) (rest : list Square.t) :
  (1 <= leading_run (Square.y first) (first :: rest) <= length (first :: rest))%nat.
Proof.
  cbn [leading_run length]. rewrite decide_True by done.
  assert (Hle : forall y0 l, (leading_run y0 l <= length l)%nat).
  { intros y0 l. induction l as [|square l IH]; cbn [leading_run length]; [lia|].
    destruct (decide (Square.y square = y0)); lia. }
  specialize (Hle (Square.y first) rest). lia.
Qed.

Lemma leading_run_app (y0 : Z) (l1 l2 : list Square.t) :
  Forall (fun square => Square.y square = y0) l1 ->
  leading_run y0 (l1 ++ l2) = (length l1 + leading_run y0 l2)%nat.
Proof.
  induction 1 as [|square l1 Hy _ IH]; [done|].
  cbn [app leading_run length]. rewrite decide_True by done. by rewrite IH.
Qed.

Lemma leading_run_none (y0 : Z) (l : list Square.t) :
  Forall (fun square => Square.y square <> y0) l -> leading_run y0 l = 0%nat.
Proof.
  destruct 1 as [|square l Hy _]; [done|].
  cbn [leading_run]. by rewrite decide_False.
Qed.

Lemma length_rows_columns {A} (f : Z -> Z -> A) (Rs Cs : list Z) :
  length (r ← Rs; f r <$> Cs) = (length Rs * length Cs)%nat.
Proof.
  induction Rs as [|r Rs IH]; [done|].
  rewrite bind_cons, length_app, length_fmap, IH. cbn [length]. lia.
Qed.

(** In a block of rows and columns of the grid, the leading run is the
    first row. *)
Lemma leading_run_rows_columns (W H S r0 : Z) (Rs Cs : list Z) :
  S <> 0 -> r0 ∉ Rs ->
  leading_run (r0 * S) (r ← r0 :: Rs; tile W H S r <$> Cs) = length Cs.
Proof.
  intros HS Hr0. rewrite bind_cons, leading_run_app.
  - rewrite length_fmap, leading_run_none; [lia|].
    apply Forall_forall. intros square Hin.
    apply list_elem_of_bind in Hin as (r & Hsq & Hr).
    apply list_elem_of_fmap in Hsq as (c & -> & _). cbn.
    intros Heq. apply Z.mul_reg_r in Heq; [|done]. by subst.
  - apply Forall_forall. intros square Hin.
    by apply list_elem_of_fmap in Hin as (c & -> & _).
Qed.

Lemma inject_Z_nonzero (c : Z) : c <> 0 -> ~ (inject_Z c == 0)%Q.
Proof. intros Hc. unfold Qeq, inject_Z. cbn [Qnum Qden]. lia. Qed.

Lemma Qdiv_inject_Z (k c : Z) :
  c <> 0 -> (inject_Z (k * c) / inject_Z c == inject_Z k)%Q.
Proof.
  intros Hc. rewrite inject_Z_mult. by apply Qdiv_mult_l, inject_Z_nonzero.
Qed.

Lemma Qdiv_inject_Z_integral (s c : Z) :
  0 < c ->
  (exists k : Z, (inject_Z s / inject_Z c == inject_Z k)%Q) <-> (c | s).
Proof.
  intros Hc. split.
  - intros [k Hk]. exists k.
    assert (Hs : (inject_Z s == inject_Z k * inject_Z c)%Q).
    { rewrite <- Hk. rewrite Qmult_comm, Qmult_div_r; [reflexivity|].
      apply inject_Z_nonzero. lia. }
    rewrite <- inject_Z_mult in Hs. unfold Qeq, inject_Z in Hs.
    cbn [Qnum Qden] in Hs. lia.
  - intros [k ->]. exists k. apply Qdiv_inject_Z. lia.
Qed.

(** The groups of the grid are blocks: some rows, and in each of them the
    same columns. *)
Lemma group_rows_columns (W H S : Z) squareGroups key (group : list Square.t) :
  0 < W -> 0 < H -> 0 < S ->
  imgReverser_squareGroups W H S = Returns squareGroups ->
  (key, group) ∈ squareGroups ->
  exists r0 Rs Cs,
    group = (r ← r0 :: Rs; tile W H S r <$> Cs) /\ (r0 ∉ Rs) /\ Cs <> [].
Proof.
  intros HW HH HS Hrun Hin.
  apply (group_is_bucket W H S) in Hin as (Hne & w & h & _ & Hgroup); [|lia|done].
  rewrite squares_grid in Hgroup by done. unfold grid in Hgroup.
  rewrite (filter_rows_columns (tile W H S) _
    (fun r => Z.min S (H - r * S) = h) (fun c => Z.min S (W - c * S) = w)) in Hgroup.
  2:{ intros r c. unfold tile. cbn. tauto. }
  pose proof (NoDup_filter (fun r => Z.min S (H - r * S) = h) _
                (NoDup_seqZ 0 (ceil_div H S))) as Hnd.
  destruct (filter (fun r => Z.min S (H - r * S) = h) (seqZ 0 (ceil_div H S)))
    as [|r0 Rs]; [by subst|].
  apply NoDup_cons in Hnd as [Hr0 _].
  exists r0, Rs, (filter (fun c => Z.min S (W - c * S) = w) (seqZ 0 (ceil_div W S))).
  split; [done|]. split; [done|]. intros Hnil. rewrite Hnil in Hgroup.
  apply Hne. rewrite Hgroup. clear. induction (r0 :: Rs) as [|r l IH]; [done|].
  by rewrite bind_cons, IH.
Qed.

(** C6: for every image width, height and side length above zero and
    every group of the grid, [getGroup] returns a geometry whose [slices]
    is the number of squares of the group, whose [cols] is the run of
    squares sharing the [y] of the first one (1 for a group of one), and
    whose [rows] is an integer with [rows * cols = slices]. *)
Theorem group_geometry_consistent (W H S : Z) :
  0 < W -> 0 < H -> 0 < S ->
  exists squareGroups,
    imgReverser_squareGroups W H S = Returns squareGroups
    /\ forall key group, (key, group) ∈ squareGroups ->
         exists geometry first,
           getGroup group = Some geometry
           /\ head group = Some first
           /\ Group.slices geometry = Z.of_nat (length group)
           /\ Group.cols geometry
              = Z.of_nat (leading_run (Square.y first) group)
           /\ (length group = 1%nat -> Group.cols geometry = 1)
           /\ (Group.rows geometry * inject_Z (Group.cols geometry)
               == inject_Z (Group.slices geometry))%Q
           /\ exists k : Z,
                (Group.rows geometry == inject_Z k)%Q
                /\ k * Group.cols geometry = Group.slices geometry.
Proof.
  intros HW HH HS.
  destruct (imgReverser_squareGroups_spec W H S) as (groups & Hrun & _); [lia|].
  exists groups. split; [done|]. intros key group Hin.
  destruct (group_rows_columns W H S groups key group HW HH HS Hrun Hin)
    as (r0 & Rs & Cs & Hgroup & Hr0 & HCs).
  assert (Hcols : leading_run (r0 * S) group = length Cs).
  { rewrite Hgroup. apply leading_run_rows_columns; [lia|done]. }
  assert (Hlen : length group = (length (r0 :: Rs) * length Cs)%nat).
  { rewrite Hgroup. apply length_rows_columns. }
  destruct Cs as [|c0 Cs]; [done|].
  destruct group as [|first rest] eqn:Hg; [done|].
  assert (Hfirst : Square.y first = r0 * S).
  { rewrite bind_cons in Hgroup. cbn [fmap list_fmap app] in Hgroup.
    by injection Hgroup as -> _. }
  unfold getGroup. rewrite getColsInGroup_leading_run, Hfirst, Hcols.
  eexists _, first. split; [reflexivity|]. split; [done|]. cbn [Group.slices Group.cols Group.rows].
  split; [done|]. split; [by rewrite Hfirst, Hcols|]. split.
  { intros Hone. rewrite Hone in Hlen. cbn [length] in Hlen. cbn [length]. nia. }
  rewrite Hlen, Nat2Z.inj_mul.
  assert (Hc : Z.of_nat (length (c0 :: Cs)) <> 0) by (cbn [length]; lia).
  split.
  - rewrite Qdiv_inject_Z by done. by rewrite <- inject_Z_mult.
  - exists (Z.of_nat (length (r0 :: Rs))). split; [|done]. by apply Qdiv_inject_Z.
Qed.

(** C8, as the code has it: for every group that is not empty, [getGroup]
    raises no error; it returns [slices], the number of squares, [cols],
    the run of squares sharing the [y] of the first one, and for [rows]
    the quotient [slices / cols], an integer exactly when [cols] divides
    [slices]. *)
Theorem getGroup_never_fails (group : list Square.t) :
  group <> [] ->
  exists geometry first,
    getGroup group = Some geometry
    /\ head group = Some first
    /\ Group.slices geometry = Z.of_nat (length group)
    /\ Group.cols geometry = Z.of_nat (leading_run (Square.y first) group)
    /\ 1 <= Group.cols geometry <= Group.slices geometry
    /\ (Group.rows geometry * inject_Z (Group.cols geometry)
        == inject_Z (Group.slices geometry))%Q
    /\ ((exists k : Z, (Group.rows geometry == inject_Z k)%Q)
        <-> (Group.cols geometry | Group.slices geometry)).
Proof.
  intros Hne. destruct group as [|first rest]; [done|].
  pose proof (leading_run_bounds first rest) as Hb.
  unfold getGroup. rewrite getColsInGroup_leading_run.
  eexists _, first. split; [reflexivity|]. split; [done|].
  cbn [Group.slices Group.cols Group.rows]. split; [done|]. split; [done|].
  split; [lia|]. split.
  - rewrite Qmult_comm, Qmult_div_r; [reflexivity|]. apply inject_Z_nonzero. lia.
  - apply Qdiv_inject_Z_integral. lia.
Qed.

End GeometryFacts.

(** ** Reassembly *)

Section ReassemblyFacts.
Context `{Seedrandom}.

Lemma imgReverser_group_returns (seed : string) (group : list Square.t) :
  group <> [] ->
  exists calls,
    imgReverser_group seed group = Returns calls /\ length calls = length group.
Proof.
  intros Hne. unfold imgReverser_group. rewrite unShuffle_array.
  destruct group as [|first rest]; [done|]. cbn [getGroup].
  eexists. split; [reflexivity|]. apply length_imap.
Qed.

(** The calls issued for one group: the call for the tile at position
    [idx] copies the block that the entry [permutation[idx]] selects. *)
Lemma imgReverser_group_copies (seed : string) (group : list Square.t) :
  unit_draws ->
  group <> [] ->
  Z.of_nat (length group) < array_length_limit ->
  exists permutation geometry calls,
    permute (length group) seed = Some permutation
    /\ getGroup group = Some geometry
    /\ imgReverser_group seed group = Returns calls
    /\ length calls = length group
    /\ forall idx tile, group !! idx = Some tile ->
         exists slot,
           permutation !! idx = Some (value slot)
           /\ 0 <= slot < Z.of_nat (length group)
           /\ calls !! idx = Some (copy_block geometry tile slot).
Proof.
  intros Hunit Hne Hlen.
  destruct (permute_run (length group) seed Hunit Hlen)
    as (permutation & Hperm & HlenP & Hrearranged).
  assert (Hslots : forall i, (i < length group)%nat ->
            exists v : Z, 0 <= v < Z.of_nat (length group)
                          /\ permutation !! i = Some (value v))
    by (intros i; by apply permutation_slot).
  destruct group as [|first rest] eqn:Hg; [done|]. rewrite <- Hg in *.
  assert (Hgeo : exists geometry, getGroup group = Some geometry).
  { rewrite Hg. cbn [getGroup]. by eexists. }
  destruct Hgeo as [geometry Hgeo].
  exists permutation, geometry. eexists.
  split; [done|]. split; [done|].
  unfold imgReverser_group. fold (permute (length group) seed).
  rewrite Hperm, Hgeo. split; [reflexivity|]. split; [apply length_imap|].
  intros idx tile Htile.
  destruct (Hslots idx) as (slot & Hslot & Hidx).
  { by eapply lookup_lt_Some. }
  exists slot. split; [done|]. split; [done|].
  rewrite list_lookup_imap, Htile. cbn [fmap option_fmap option_map].
  unfold drawImage_call, copy_block. by rewrite Hidx.
Qed.

Lemma length_le_concat {A} (l : list A) (ls : list (list A)) :
  l ∈ ls -> (length l <= length (concat ls))%nat.
Proof.
  induction 1 as [l ls|l l' ls _ IH]; cbn [concat]; rewrite length_app; lia.
Qed.

Lemma outcome_flat_map_returns {A B} (f : A -> outcome (list B))
    (size : A -> nat) (l : list A) :
  Forall (fun a => exists bs, f a = Returns bs /\ length bs = size a) l ->
  exists bs, outcome_flat_map f l = Returns bs
             /\ length bs = sum_list (size <$> l).
Proof.
  induction 1 as [|a l (bs & Hbs & Hlen) _ (bs' & Hbs' & Hlen')]; cbn [outcome_flat_map].
  - by exists [].
  - rewrite Hbs, Hbs'. exists (bs ++ bs'). split; [done|].
    rewrite length_app. cbn. lia.
Qed.

Lemma length_concat_groups (squareGroups : square_groups) :
  length (concat squareGroups.*2) = sum_list ((fun entry => length entry.2) <$> squareGroups).
Proof.
  induction squareGroups as [|[key group] rest IH]; [done|].
  cbn [fmap list_fmap snd concat sum_list_with]. rewrite length_app.
  fold (fmap (M := list) (@snd string (list Square.t))). rewrite IH. done.
Qed.

Context `{Canvas}.

(** What [imgReverser] does once the image is loaded, for a side length
    other than zero: it returns a buffer with one call per square. *)
Lemma imgReverser_returns (url : json) (img : image) (S : Z) (seed : string) :
  loadImage url = Some img ->
  S <> 0 ->
  exists buffer,
    imgReverser url S seed = Returns buffer
    /\ source buffer = img
    /\ canvas_width buffer = image_width img
    /\ canvas_height buffer = image_height img
    /\ length (calls buffer)
       = Z.to_nat (ceil_div (image_width img) S * ceil_div (image_height img) S).
Proof.
  intros Himg HS. unfold imgReverser. rewrite Himg.
  destruct (imgReverser_squareGroups_spec (image_width img) (image_height img) S HS)
    as (groups & -> & [_ Hne] & Hall & _).
  cbn [mbind outcome_bind].
  destruct (outcome_flat_map_returns
              (fun squareGroup => imgReverser_group seed squareGroup.2)
              (fun squareGroup => length squareGroup.2) groups)
    as (issued & -> & Hlen).
  { eapply Forall_impl; [exact Hne|]. intros [key group] Hg.
    by apply imgReverser_group_returns. }
  eexists. split; [reflexivity|]. cbn [source canvas_width canvas_height calls].
  repeat split.
  rewrite Hlen, <- length_concat_groups, Hall. unfold squares.
  by rewrite length_fmap, length_seqZ.
Qed.

(** What the second loop issues when each group's calls are as [P] says:
    the calls of the groups, one group after the other. *)
Lemma outcome_flat_map_Forall2 {A B} (f : A -> outcome (list B))
    (P : A -> list B -> Prop) (l : list A) :
  Forall (fun a => exists bs, f a = Returns bs /\ P a bs) l ->
  exists bss, outcome_flat_map f l = Returns (concat bss) /\ Forall2 P l bss.
Proof.
  induction 1 as [|a l (bs & Hbs & HP) _ (bss & Hbss & Hall)]; cbn [outcome_flat_map].
  - exists []. split; [done|constructor].
  - rewrite Hbs, Hbss. exists (bs :: bss). split; [done|]. by constructor.
Qed.

(** C4: the calls of the reassembler are the calls for the groups, one
    group after the other in the order of the partition, and within a group
    one call for each tile in raster order.  For the tile at position
    [idx] of a group, with [slot = permutation[idx]],
    [srcRow = floor(slot / geometry.cols)] and
    [srcCol = slot - srcRow * geometry.cols], the call copies a block of
    the tile's width and height from
    [(geometry.x + srcCol * tile.width, geometry.y + srcRow * tile.height)]
    in the source image to [(tile.x, tile.y)]. *)
Theorem reassembly_copies_blocks (url : json) (img : image) (S : Z) (seed : string) :
  unit_draws ->
  loadImage url = Some img ->
  S <> 0 ->
  ceil_div (image_width img) S * ceil_div (image_height img) S < array_length_limit ->
  exists squareGroups buffer issued,
    imgReverser_squareGroups (image_width img) (image_height img) S
    = Returns squareGroups
    /\ imgReverser url S seed = Returns buffer
    /\ source buffer = img
    /\ calls buffer = concat issued
    /\ Forall2
         (fun (entry : string * list Square.t) (group_calls : list DrawCall) =>
            exists permutation geometry,
              permute (length entry.2) seed = Some permutation
              /\ getGroup entry.2 = Some geometry
              /\ length group_calls = length entry.2
              /\ forall idx tile, entry.2 !! idx = Some tile ->
                   exists slot,
                     permutation !! idx = Some (value slot)
                     /\ 0 <= slot < Z.of_nat (length entry.2)
                     /\ group_calls !! idx = Some (copy_block geometry tile slot))
         squareGroups issued.
Proof.
  intros Hunit Himg HS Hlimit. unfold imgReverser. rewrite Himg.
  destruct (imgReverser_squareGroups_spec (image_width img) (image_height img) S HS)
    as (groups & Hrun & [_ Hne] & Hall & _).
  rewrite Hrun. cbn [mbind outcome_bind].
  destruct (outcome_flat_map_Forall2
              (fun squareGroup : string * list Square.t =>
                 imgReverser_group seed squareGroup.2)
              (fun (entry : string * list Square.t) (group_calls : list DrawCall) =>
                 exists permutation geometry,
                   permute (length entry.2) seed = Some permutation
                   /\ getGroup entry.2 = Some geometry
                   /\ length group_calls = length entry.2
                   /\ forall idx tile, entry.2 !! idx = Some tile ->
                        exists slot,
                          permutation !! idx = Some (value slot)
                          /\ 0 <= slot < Z.of_nat (length entry.2)
                          /\ group_calls !! idx = Some (copy_block geometry tile slot))
              groups)
    as (issued & Hissued & Hcopies).
  { apply Forall_forall. intros [key group] Hin. cbn [snd].
    rewrite Forall_forall in Hne. pose proof (Hne _ Hin) as Hgroup. cbn [snd] in Hgroup.
    assert (Hlen : Z.of_nat (length group) < array_length_limit).
    { assert (Hle : (length group <= length (concat groups.*2))%nat).
      { apply length_le_concat. apply list_elem_of_fmap. by exists (key, group). }
      rewrite Hall in Hle. unfold squares in Hle.
      rewrite length_fmap, length_seqZ in Hle.
      unfold array_length_limit in *. lia. }
    destruct (imgReverser_group_copies seed group Hunit Hgroup Hlen)
      as (permutation & geometry & issued & Hperm & Hgeo & Hcalls & Hlength & Hblocks).
    exists issued. split; [done|]. by exists permutation, geometry. }
  rewrite Hissued. cbn [mbind outcome_bind].
  exists groups. eexists. exists issued.
  split; [done|]. split; [reflexivity|]. cbn [source calls]. done.
Qed.

(** C7, as the code has it: a side length or image dimensions of zero or
    less are not rejected.  Once the image is loaded the reconstruction
    never throws: with a side length other than zero it returns, having
    issued one call for each of the [ceil(W/S) * ceil(H/S)] squares (none
    when that product is not positive); with a side length of zero and
    positive image dimensions the first loop never ends. *)
Theorem imgReverser_no_validation (url : json) (img : image) (S : Z) (seed : string) :
  loadImage url = Some img ->
  S <= 0 \/ image_width img <= 0 \/ image_height img <= 0 ->
  imgReverser url S seed <> Throws
  /\ (S <> 0 ->
      exists buffer,
        imgReverser url S seed = Returns buffer
        /\ length (calls buffer)
           = Z.to_nat (ceil_div (image_width img) S
                       * ceil_div (image_height img) S))
  /\ (S = 0 -> 0 < image_width img -> 0 < image_height img ->
      imgReverser url S seed = Diverges).
Proof.
  intros Himg _. split; [|split].
  - destruct (Z.eq_dec S 0) as [->|HS].
    + unfold imgReverser, imgReverser_squareGroups, Math_ceil_div. rewrite Himg.
      cbn [Z.eqb].
      destruct (0 <? image_width img), (image_width img <? 0),
        (0 <? image_height img), (image_height img <? 0); cbn; discriminate.
    + destruct (imgReverser_returns url img S seed Himg HS) as (buffer & -> & _).
      discriminate.
  - intros HS.
    destruct (imgReverser_returns url img S seed Himg HS) as (buffer & -> & _ & _ & _ & Hlen).
    by exists buffer.
  - intros -> HW HH.
    unfold imgReverser, imgReverser_squareGroups, Math_ceil_div. rewrite Himg.
    cbn [Z.eqb].
    destruct (Z.ltb_spec 0 (image_width img)); [|lia].
    destruct (Z.ltb_spec 0 (image_height img)); [|lia]. reflexivity.
Qed.

(** C10: two POST requests whose bodies parse and agree on [imgURL] get
    the same response; and when the handler goes on to reconstruct, the
    call is [imgReverser(imgURL, 200, 'stay')] whatever else the body
    holds. *)
Theorem handler_depends_only_on_imgURL (req1 req2 : request) (body1 body2 : json) :
  method req1 = "POST" -> method req2 = "POST" ->
  parsed_body req1 = Some body1 -> parsed_body req2 = Some body2 ->
  body_imgURL body1 = body_imgURL body2 ->
  handler req1 = handler req2
  /\ forall url,
       body_imgURL body1 = Returns (Some url) ->
       falsy (Some url) = false ->
       toString_throws url = false ->
       handler req1
       = (buffer ← imgReverser url 200 "stay";
          Returns {| status := 200; body := data buffer;
                     content_type := Some "image/png" |}).
Proof.
  intros Hm1 Hm2 Hb1 Hb2 Hurl. unfold handler.
  rewrite Hm1, Hm2, Hb1, Hb2. cbn [String.eqb Ascii.eqb Bool.eqb negb]. split.
  - by rewrite Hurl.
  - intros url Hbody Hfalsy Hstr. rewrite Hbody. cbn [mbind outcome_bind].
    by rewrite Hfalsy, Hstr.
Qed.

End ReassemblyFacts.

(** ** The theorems on examples *)

(** An image of 400 by 300 pixels cut into squares of side 200: two full
    squares, and two of height 100 below them. *)
Example squareGroups_400_300 :
  imgReverser_squareGroups 400 300 200
  = Returns
      [ ("200-200", [Square.mk 0 0 200 200; Square.mk 200 0 200 200]);
        ("200-100", [Square.mk 0 200 200 100; Square.mk 200 200 200 100]) ].
Proof. reflexivity. Qed.



Lemma group_geometry_consistent_witness :
  0 < 400 /\ 0 < 300 /\ 0 < 200
  /\ exists squareGroups,
      imgReverser_squareGroups 400 300 200 = Returns squareGroups
      /\ forall key group, (key, group) ∈ squareGroups ->
           exists geometry first,
             getGroup group = Some geometry
             /\ head group = Some first
             /\ Group.slices geometry = Z.of_nat (length group)
             /\ Group.cols geometry
                = Z.of_nat (leading_run (Square.y first) group)
             /\ (length group = 1%nat -> Group.cols geometry = 1)
             /\ (Group.rows geometry * inject_Z (Group.cols geometry)
                 == inject_Z (Group.slices geometry))%Q
             /\ exists k : Z,
                  (Group.rows geometry == inject_Z k)%Q
                  /\ k * Group.cols geometry = Group.slices geometry.
Proof.
  split; [lia|]. split; [lia|]. split; [lia|].
  apply (group_geometry_consistent 400 300 200); lia.
Defined.

Lemma reassembly_copies_blocks_witness :
  let url := JString "scrambled.png" in
  let img : @image example_canvas := (400, 300) in
  @unit_draws example_seedrandom
  /\ @loadImage example_canvas url = Some img
  /\ 200 <> 0
  /\ ceil_div (@image_width example_canvas img) 200
     * ceil_div (@image_height example_canvas img) 200 < array_length_limit
  /\ exists squareGroups buffer issued,
      imgReverser_squareGroups (@image_width example_canvas img)
        (@image_height example_canvas img) 200
      = Returns squareGroups
      /\ @imgReverser example_seedrandom example_canvas url 200 "stay"
         = Returns buffer
      /\ @source example_canvas buffer = img
      /\ @calls example_canvas buffer = concat issued
      /\ Forall2
           (fun (entry : string * list Square.t) (group_calls : list DrawCall) =>
              exists permutation geometry,
                @permute example_seedrandom (length entry.2) "stay" = Some permutation
                /\ getGroup entry.2 = Some geometry
                /\ length group_calls = length entry.2
                /\ forall idx tile, entry.2 !! idx = Some tile ->
                     exists slot,
                       permutation !! idx = Some (value slot)
                       /\ 0 <= slot < Z.of_nat (length entry.2)
                       /\ group_calls !! idx = Some (copy_block geometry tile slot))
           squareGroups issued.
Proof.
  intros url img.
  split; [exact example_unit_draws|]. split; [reflexivity|].
  split; [discriminate|]. split; [reflexivity|].
  apply (@reassembly_copies_blocks example_seedrandom example_canvas
           url img 200 "stay" example_unit_draws);
    [reflexivity|discriminate|reflexivity].
Defined.

(** C7 as stated fails: with a side length of -200 the reconstruction of
    the 400 by 300 image raises nothing and copies two degenerate
    squares. *)
Lemma imgReverser_negative_side :
  -200 <= 0
  /\ @imgReverser example_seedrandom example_canvas
       (JString "scrambled.png") (-200) "stay"
     = Returns
         {| source := (400, 300); canvas_width := 400; canvas_height := 300;
            calls :=
              [ {| sx := Some 0; sy := Some 0; sw := -200; sh := -200;
                   dx := 0; dy := 0; dw := -200; dh := -200 |};
                {| sx := Some 0; sy := Some (-200); sw := -200; sh := -200;
                   dx := 200; dy := 200; dw := -200; dh := -200 |} ] |}
  /\ @imgReverser example_seedrandom example_canvas
       (JString "scrambled.png") (-200) "stay" <> Throws.
Proof. split; [lia|]. split; [reflexivity|discriminate]. Qed.

Lemma imgReverser_no_validation_witness :
  @loadImage example_canvas (JString "scrambled.png") = Some (400, 300)
  /\ (-200 <= 0 \/ 400 <= 0 \/ 300 <= 0)
  /\ @imgReverser example_seedrandom example_canvas
       (JString "scrambled.png") (-200) "stay" <> Throws
  /\ (-200 <> 0 ->
      exists buffer,
        @imgReverser example_seedrandom example_canvas
          (JString "scrambled.png") (-200) "stay" = Returns buffer
        /\ length (calls buffer)
           = Z.to_nat (ceil_div 400 (-200) * ceil_div 300 (-200)))
  /\ (-200 = 0 -> 0 < 400 -> 0 < 300 ->
      @imgReverser example_seedrandom example_canvas
        (JString "scrambled.png") (-200) "stay" = Diverges).
Proof.
  split; [reflexivity|]. split; [left; lia|].
  apply (@imgReverser_no_validation example_seedrandom example_canvas
           (JString "scrambled.png") (400, 300) (-200) "stay");
    [reflexivity|left; lia].
Defined.

(** C8 as stated fails: a group of three squares of which two share the
    first [y] gets a geometry with [rows = 3/2], and no error. *)
Lemma getGroup_fractional_rows :
  getGroup uneven_group
  = Some {| Group.slices := 3; Group.cols := 2; Group.rows := 3 # 2;
            Group.x := 0; Group.y := 0 |}
  /\ ~ (2 | 3).
Proof.
  split; [reflexivity|]. intros [k Hk]. lia.
Qed.

Lemma getGroup_never_fails_witness :
  uneven_group <> []
  /\ exists geometry first,
      getGroup uneven_group = Some geometry
      /\ head uneven_group = Some first
      /\ Group.slices geometry = Z.of_nat (length uneven_group)
      /\ Group.cols geometry = Z.of_nat (leading_run (Square.y first) uneven_group)
      /\ 1 <= Group.cols geometry <= Group.slices geometry
      /\ (Group.rows geometry * inject_Z (Group.cols geometry)
          == inject_Z (Group.slices geometry))%Q
      /\ ((exists k : Z, (Group.rows geometry == inject_Z k)%Q)
          <-> (Group.cols geometry | Group.slices geometry)).
Proof.
  split; [discriminate|]. apply (getGroup_never_fails uneven_group). discriminate.
Defined.

Lemma handler_depends_only_on_imgURL_witness :
  method example_request = "POST" /\ method plain_request = "POST"
  /\ body_imgURL (JObject [("imgURL", JString "scrambled.png");
                           ("squareSideLength",
                            JNumber (S754_finite false 7036874417766400 (-47)));
                           ("seed", JString "other")])
     = body_imgURL (JObject [("imgURL", JString "scrambled.png")])
  /\ @handler example_seedrandom example_canvas example_request
     = @handler example_seedrandom example_canvas plain_request
  /\ forall url,
       body_imgURL (JObject [("imgURL", JString "scrambled.png");
                             ("squareSideLength",
                              JNumber (S754_finite false 7036874417766400 (-47)));
                             ("seed", JString "other")])
       = Returns (Some url) ->
       falsy (Some url) = false ->
       toString_throws url = false ->
       @handler example_seedrandom example_canvas example_request
       = (buffer ← @imgReverser example_seedrandom example_canvas url 200 "stay";
          Returns {| status := 200; body := data buffer;
                     content_type := Some "image/png" |}).
Proof.
  split; [reflexivity|]. split; [reflexivity|]. split; [reflexivity|].
  apply (@handler_depends_only_on_imgURL example_seedrandom example_canvas
           example_request plain_request _ _
           eq_refl eq_refl eq_refl eq_refl eq_refl).
Defined.

(** * Part III: further properties of the program *)

(** ** createRange and baseRange *)

Section RangeFacts.

Lemma length_baseRange_fill (n : nat) (start step : Z) :
  length (baseRange_fill n start step) = n.
Proof.
  revert start. induction n as [|n IH]; intros start; cbn [baseRange_fill length]; [done|].
  by rewrite IH.
Qed.

Lemma lookup_baseRange_fill (n i : nat) (start step : Z) :
  (i < n)%nat ->
  baseRange_fill n start step !! i = Some (start + Z.of_nat i * step).
Proof.
  revert i start. induction n as [|n IH]; intros i start Hi; [lia|].
  cbn [baseRange_fill]. destruct i as [|i]; cbn [lookup list_lookup].
  - f_equal. lia.
  - fold (@lookup nat Z (list Z) _). rewrite IH by lia. f_equal. lia.
Qed.

(** X1: for safe integers [start], [end] and [step] whose difference
    [end - start] is safe too, and when the length
    [max(ceil((end - start) / (step || 1)), 0)] is one that an array can
    have, [baseRange] returns that many numbers, the one at index [i]
    being [start + i * step] when filling from the left and
    [start + (length - 1 - i) * step] when filling from the right. *)
Theorem baseRange_lookup (start end_ step : Z) (fromRight : bool) (i : nat) :
  let len :=
    Z.to_nat (Z.max (ceil_div (end_ - start) (if step =? 0 then 1 else step)) 0) in
  safe_integer start -> safe_integer end_ -> safe_integer step ->
  safe_integer (end_ - start) ->
  Z.of_nat len < array_length_limit ->
  length (baseRange start end_ step fromRight) = len
  /\ ((i < len)%nat ->
      baseRange start end_ step fromRight !! i
      = Some (if fromRight then start + (Z.of_nat len - 1 - Z.of_nat i) * step
              else start + Z.of_nat i * step)).
Proof.
  intros len _ _ _ _ _. unfold baseRange. fold len. destruct fromRight.
  - split; [by rewrite length_reverse, length_baseRange_fill|]. intros Hi.
    rewrite reverse_lookup by (by rewrite length_baseRange_fill).
    rewrite length_baseRange_fill, lookup_baseRange_fill by lia.
    by replace (Z.of_nat (len - S i)) with (Z.of_nat len - 1 - Z.of_nat i) by lia.
  - split; [apply length_baseRange_fill|]. intros Hi.
    by apply lookup_baseRange_fill.
Qed.

Lemma elem_of_baseRange_fill (n : nat) (start step x : Z) :
  x ∈ baseRange_fill n start step
  <-> exists i : Z, 0 <= i < Z.of_nat n /\ x = start + i * step.
Proof.
  rewrite list_elem_of_lookup. split.
  - intros [i Hi].
    assert (Hlt : (i < n)%nat).
    { apply lookup_lt_Some in Hi. by rewrite length_baseRange_fill in Hi. }
    rewrite lookup_baseRange_fill in Hi by done. injection Hi as <-.
    exists (Z.of_nat i). split; [lia|done].
  - intros (i & Hi & ->). exists (Z.to_nat i).
    rewrite lookup_baseRange_fill by lia. by rewrite Z2Nat.id by lia.
Qed.

(** X2: with a positive step, [createRange(start, end, step)] holds
    exactly the numbers [start + i * step], [i >= 0], that are below
    [end]; with a negative step, those that are above [end].  [end] itself
    is never in the range.  [start], [end], [step] and [end - start] are
    safe integers, and the range is one that an array can hold. *)
Theorem createRange_elem_of (start end_ step x : Z) :
  step <> 0 ->
  safe_integer start -> safe_integer end_ -> safe_integer step ->
  safe_integer (end_ - start) ->
  ceil_div (end_ - start) step < array_length_limit ->
  x ∈ createRange start (Some end_) (Some step)
  <-> exists i : Z, 0 <= i /\ x = start + i * step
                    /\ if 0 <? step then x < end_ else end_ < x.
Proof.
  intros Hstep _ _ _ _ _. unfold createRange, toNumber, baseRange.
  replace (if start =? 0 then 0 else start) with start
    by (destruct (Z.eqb_spec start 0); lia).
  destruct (Z.eqb_spec step 0) as [|_]; [done|].
  rewrite elem_of_baseRange_fill.
  unfold ceil_div.
  pose proof (Z.div_mod (- (end_ - start)) step Hstep) as Hdm.
  set (q := - (end_ - start) / step) in *.
  set (m := (- (end_ - start)) mod step) in *.
  destruct (Z.ltb_spec 0 step) as [Hpos|Hneg].
  - pose proof (Z.mod_pos_bound (- (end_ - start)) step Hpos) as Hm. fold m in Hm.
    split.
    + intros (i & Hi & ->). exists i. split; [lia|]. split; [done|]. nia.
    + intros (i & Hi & -> & Hlt). exists i. split; [|done]. nia.
  - pose proof (Z.mod_neg_bound (- (end_ - start)) step ltac:(lia)) as Hm. fold m in Hm.
    split.
    + intros (i & Hi & ->). exists i. split; [lia|]. split; [done|]. nia.
    + intros (i & Hi & -> & Hlt). exists i. split; [|done]. nia.
Qed.

(** X3: with one argument of a size below the limit of array lengths,
    [createRange(n)] counts up from 0 to [n - 1] for a positive [n] and
    down from 0 to [n + 1] for a negative one. *)
Theorem createRange_one_argument (n : Z) :
  Z.abs n < array_length_limit ->
  createRange n None None
  = if 0 <? n then seqZ 0 n else Z.opp <$> seqZ 0 (- n).
Proof.
  intros _. unfold createRange, toNumber, baseRange, ceil_div.
  replace (if n =? 0 then 0 else n) with n by (destruct (Z.eqb_spec n 0); lia).
  assert (Hfill : forall (k : nat) (start step : Z),
    baseRange_fill k start step = (fun i => start + i * step) <$> seqZ 0 (Z.of_nat k)).
  { intros k start step. apply list_eq. intros i.
    rewrite list_lookup_fmap.
    destruct (decide (i < k)%nat) as [Hi|Hi].
    - rewrite lookup_baseRange_fill, lookup_seqZ_lt by lia. cbn. f_equal; lia.
    - rewrite lookup_seqZ_ge by lia.
      apply lookup_ge_None. rewrite length_baseRange_fill. lia. }
  rewrite Hfill. destruct (Z.ltb_spec 0 n) as [Hpos|Hneg]; cbn [Z.eqb].
  - rewrite Z.sub_0_r, Z.div_1_r, Z.opp_involutive, Z.max_l, Z2Nat.id by lia.
    rewrite <- (list_fmap_id (seqZ 0 n)) at 2.
    apply list_fmap_ext. intros i x _. cbn. lia.
  - rewrite Z.sub_0_r.
    replace (- n / -1) with n by (apply Z.div_unique_exact; lia).
    destruct (Z.eq_dec n 0) as [->|Hn]; [done|].
    rewrite Z.max_l, Z2Nat.id by lia.
    apply list_fmap_ext. intros i x _. cbn. lia.
Qed.

(** X4: a step of 0 does not loop for ever: the range then repeats
    [start], [end - start] times, as long as an array can be that long. *)
Theorem createRange_zero_step (start end_ : Z) :
  end_ - start < array_length_limit ->
  createRange start (Some end_) (Some 0)
  = replicate (Z.to_nat (end_ - start)) start.
Proof.
  intros _. unfold createRange, toNumber, baseRange, ceil_div.
  replace (if start =? 0 then 0 else start) with start
    by (destruct (Z.eqb_spec start 0); lia).
  cbn [Z.eqb]. rewrite Z.div_1_r, Z.opp_involutive.
  replace (Z.to_nat (Z.max (end_ - start) 0)) with (Z.to_nat (end_ - start)) by lia.
  generalize (Z.to_nat (end_ - start)). intros n.
  induction n as [|n IH]; cbn [baseRange_fill replicate]; [done|].
  by rewrite Z.add_0_r, IH.
Qed.

End RangeFacts.

(** ** unShuffle on any array and any generator *)

Section UnShuffleMore.
Context `{Seedrandom}.

Lemma array_get_elem_of {A} (array : list A) (i : Number.integral) (x : A) :
  array_get array i = Some x -> x ∈ array.
Proof.
  unfold array_get. destruct i as [z| | |]; try discriminate.
  destruct (0 <=? z); [|discriminate]. apply list_elem_of_lookup_2.
Qed.

Lemma splice1_sublist {A} (array : list A) (start : Number.integral) :
  splice1 array start `sublist_of` array.
Proof. unfold splice1. apply sublist_delete. Qed.

(** Whatever is drawn, one iteration keeps the length of
    [shuffledArray], takes nothing but indices out of [indexArray], and
    writes at most [array[i]]. *)
Lemma unShuffle_step_safe {A} (a : A) g (pool : list nat) (sh : list (element A)) :
  Forall (fun d => (d < length sh)%nat) pool ->
  exists pool' sh',
    unShuffle_step a (g, pool, sh) = (snd (draw g), pool', sh')
    /\ length sh' = length sh
    /\ pool' `sublist_of` pool
    /\ forall i e, sh' !! i = Some e -> sh !! i = Some e \/ e = value a.
Proof.
  intros Hpool. unfold unShuffle_step. destruct (draw g) as [r g']. cbn [snd].
  destruct (array_get pool (randomIndex r pool)) as [d|] eqn:Hget.
  - assert (Hd : (d < length sh)%nat).
    { apply array_get_elem_of in Hget. by apply (proj1 (Forall_forall _ _) Hpool). }
    eexists _, _. split; [reflexivity|]. unfold array_set.
    rewrite decide_True by done. split; [apply length_insert|].
    split; [apply splice1_sublist|]. intros i e Hi.
    destruct (decide (d = i)) as [->|Hne].
    + rewrite list_lookup_insert_eq in Hi by done. right. congruence.
    + rewrite list_lookup_insert_ne in Hi by done. by left.
  - eexists _, _. split; [reflexivity|]. split; [done|].
    split; [apply splice1_sublist|]. intros i e Hi. by left.
Qed.

Lemma unShuffle_loop_safe {A} (array : list A) g (pool : list nat) (sh : list (element A)) :
  Forall (fun d => (d < length sh)%nat) pool ->
  exists pool' sh',
    unShuffle_loop array (g, pool, sh) = (draws (length array) g, pool', sh')
    /\ length sh' = length sh
    /\ forall i e, sh' !! i = Some e ->
         sh !! i = Some e \/ exists a, e = value a /\ a ∈ array.
Proof.
  revert g pool sh. induction array as [|a array IH]; intros g pool sh Hpool.
  - exists pool, sh. split; [done|]. split; [done|]. intros i e Hi. by left.
  - cbn [unShuffle_loop length draws].
    destruct (unShuffle_step_safe a g pool sh Hpool)
      as (pool1 & sh1 & -> & Hlen1 & Hsub & Hsh1).
    destruct (IH (snd (draw g)) pool1 sh1) as (pool' & sh' & -> & Hlen' & Hsh').
    { rewrite Hlen1. eapply Forall_forall. intros d Hd.
      apply (proj1 (Forall_forall _ _) Hpool). by eapply elem_of_sublist. }
    exists pool', sh'. split; [done|]. split; [congruence|].
    intros i e Hi. destruct (Hsh' i e Hi) as [Hold|(a' & -> & Ha')].
    + destruct (Hsh1 i e Hold) as [?| ->]; [by left|].
      right. exists a. split; [done|by left].
    + right. exists a'. split; [done|by right].
Qed.

(** X5: whatever the generator returns, in the unit interval or not,
    [unShuffle] calls the generator once per element and returns an array
    of the length of its input in which every slot is still [null] or
    holds an element of the input. *)
Theorem unShuffle_any_generator {A} (array : list A) (seed : string) :
  exists result,
    unShuffle (an_array array) seed
    = Some (draws (length array) (seedrandom seed), result)
    /\ length result = length array
    /\ (forall i e, result !! i = Some e ->
          e = null \/ exists a, e = value a /\ a ∈ array).
Proof.
  rewrite unShuffle_array. unfold unShuffle_run.
  rewrite unShuffle_init_spec. cbn [app].
  destruct (unShuffle_loop_safe array (seedrandom seed)
              (seq 0 (length array)) (replicate (length array) null))
    as (pool' & sh' & Hrun & Hlen & Hsh).
  { apply Forall_forall. intros d Hd. apply elem_of_seq in Hd.
    rewrite length_replicate. lia. }
  rewrite Hrun. cbn [fst snd]. exists sh'. split; [done|].
  rewrite length_replicate in Hlen. split; [done|].
  intros i e Hi. destruct (Hsh i e Hi) as [Hold|?]; [|by right].
  apply lookup_replicate in Hold as [-> _]. by left.
Qed.

(** X6: for draws in the unit interval, [unShuffle], having called the
    generator once per element, returns a rearrangement of its input: the
    same elements, each as often as in the input, and no [null] left. *)
Theorem unShuffle_rearranges {A} (array : list A) (seed : string) :
  unit_draws ->
  Z.of_nat (length array) < array_length_limit ->
  exists result,
    unShuffle (an_array array) seed
    = Some (draws (length array) (seedrandom seed), result)
    /\ result ≡ₚ value <$> array.
Proof.
  intros Hunit Hlen. rewrite unShuffle_array.
  destruct (unShuffle_run_spec array (seedrandom seed) Hunit Hlen)
    as (sh & -> & _ & Hperm).
  by exists sh.
Qed.

Lemma array_set_fmap {A B} (f : A -> B) (sh : list (element A)) (d : nat) (a : A) :
  array_set (element_map f <$> sh) d (value (f a))
  = element_map f <$> array_set sh d (value a).
Proof.
  unfold array_set. rewrite length_fmap.
  destruct (decide (d < length sh)%nat).
  - by rewrite list_fmap_insert.
  - by rewrite !fmap_app, fmap_replicate.
Qed.

Lemma unShuffle_loop_fmap {A B} (f : A -> B) (array : list A) g pool sh :
  unShuffle_loop (f <$> array) (g, pool, element_map f <$> sh)
  = (fst (unShuffle_loop array (g, pool, sh)),
     element_map f <$> snd (unShuffle_loop array (g, pool, sh))).
Proof.
  revert g pool sh. induction array as [|a array IH]; intros g pool sh; [done|].
  cbn [fmap list_fmap unShuffle_loop]. fold (fmap (M := list) f).
  assert (Hstep : unShuffle_step (f a) (g, pool, element_map f <$> sh)
                  = (fst (unShuffle_step a (g, pool, sh)),
                     element_map f <$> snd (unShuffle_step a (g, pool, sh)))).
  { unfold unShuffle_step. destruct (draw g) as [r g'].
    destruct (array_get pool (randomIndex r pool)) as [d|]; cbn [fst snd]; [|done].
    by rewrite array_set_fmap. }
  rewrite Hstep.
  destruct (unShuffle_step a (g, pool, sh)) as [[g1 pool1] sh1]. cbn [fst snd].
  apply IH.
Qed.

(** X7: where [unShuffle] puts an element depends on the length of the
    array and on the seed only, not on the elements: the result for any
    array is the result for the index sequence [[0 .. N-1]] with every
    index [slot] replaced by [array[slot]], and the generator is left in
    the same state. *)
Theorem unShuffle_by_index {A} (default : A) (array : list A) (seed : string) :
  unShuffle (an_array array) seed
  = fmap (M := option)
      (prod_map id
         (fmap (M := list)
            (element_map (fun slot : Z => nth (Z.to_nat slot) array default))))
      (permute_traced (length array) seed).
Proof.
  unfold permute_traced. rewrite createRange_0, !unShuffle_array.
  cbn [fmap option_fmap option_map prod_map fst snd id].
  rewrite length_fmap, length_seq. do 2 f_equal. unfold unShuffle_run.
  rewrite !unShuffle_init_spec, length_fmap, length_seq. cbn [app].
  set (f := fun slot : Z => nth (Z.to_nat slot) array default).
  assert (Harray : array = f <$> (Z.of_nat <$> seq 0 (length array))).
  { apply list_eq. intros i. rewrite !list_lookup_fmap.
    destruct (decide (i < length array)%nat) as [Hi|Hi].
    - rewrite lookup_seq_lt by done. cbn. unfold f. rewrite Nat2Z.id.
      destruct (lookup_lt_is_Some_2 array i Hi) as [x Hx]. rewrite Hx.
      f_equal. symmetry. by apply nth_lookup_Some.
    - rewrite lookup_seq_ge by lia. by apply lookup_ge_None; lia. }
  rewrite Harray at 1.
  replace (replicate (length array) (@null A))
    with (element_map f <$> replicate (length array) (@null Z))
    by (by rewrite fmap_replicate).
  by rewrite unShuffle_loop_fmap.
Qed.

(** X8: for a draw in the unit interval and an [indexArray] that is not
    empty, the index computed in binary64 is an integer below the length:
    the read [indexArray[randomIndex]] is defined and the splice removes
    exactly that element. *)
Theorem randomIndex_valid (r : spec_float) (indexArray : list nat) :
  Number.unit_interval r = true ->
  indexArray <> [] ->
  Z.of_nat (length indexArray) < array_length_limit ->
  exists k : nat,
    randomIndex r indexArray = Number.Int (Z.of_nat k)
    /\ (k < length indexArray)%nat
    /\ array_get indexArray (randomIndex r indexArray) = indexArray !! k
    /\ splice1 indexArray (randomIndex r indexArray) = delete k indexArray
    /\ length (splice1 indexArray (randomIndex r indexArray))
       = (length indexArray - 1)%nat.
Proof.
  intros Hr Hne Hlen.
  destruct (randomIndex_in_range r indexArray Hr Hne Hlen) as (Hpick & Hget & Hsplice).
  exists (pick_of r (length indexArray)).
  split.
  - unfold randomIndex, pick_of in *.
    replace (Z.of_nat (length indexArray) - 1 - 0 + 1)
      with (Z.of_nat (length indexArray)) in * by lia.
    destruct (NumberFacts.floor_mul_range r (Z.of_nat (length indexArray)) Hr)
      as (z & Hz & Hrange).
    { destruct indexArray; [done|]. cbn [length] in *.
      unfold array_length_limit in Hlen. lia. }
    rewrite Hz. f_equal. lia.
  - split; [done|]. split; [done|]. split; [done|].
    rewrite Hsplice. apply length_delete. by apply lookup_lt_is_Some_2.
Qed.

End UnShuffleMore.

(** ** getColsInGroup *)

Section ColsFacts.

Lemma leading_run_prefix (y0 : Z) (group : list Square.t) (i : nat) (square : Square.t) :
  group !! i = Some square ->
  ((i < leading_run y0 group)%nat -> Square.y square = y0)
  /\ (i = leading_run y0 group -> Square.y square <> y0).
Proof.
  revert i. induction group as [|first rest IH]; intros i Hi; [done|].
  cbn [leading_run]. destruct (decide (Square.y first = y0)) as [Hy|Hy].
  - destruct i as [|i]; cbn in Hi.
    + injection Hi as <-. split; [done|discriminate].
    + destruct (IH i Hi) as [Hlt Heq]. split.
      * intros ?. apply Hlt. lia.
      * intros ?. apply Heq. lia.
  - split; [lia|]. intros ->. cbn in Hi. by injection Hi as <-.
Qed.

(** X9: [getColsInGroup] returns 0 for an empty group and otherwise a
    count between 1 and the length of the group; the squares before that
    position share the [y] of the first square, and the square at that
    position, if there is one, does not. *)
Theorem getColsInGroup_run (group : list Square.t) :
  (group = [] -> getColsInGroup group = 0%nat)
  /\ (group <> [] -> (1 <= getColsInGroup group <= length group)%nat)
  /\ forall first i square,
       head group = Some first ->
       group !! i = Some square ->
       ((i < getColsInGroup group)%nat -> Square.y square = Square.y first)
       /\ (i = getColsInGroup group -> Square.y square <> Square.y first).
Proof.
  split; [by intros ->|]. split.
  - intros Hne. destruct group as [|first rest]; [done|].
    rewrite getColsInGroup_leading_run. apply leading_run_bounds.
  - intros first i square Hfirst Hi. destruct group as [|first' rest]; [done|].
    injection Hfirst as ->. rewrite getColsInGroup_leading_run.
    by apply leading_run_prefix.
Qed.

End ColsFacts.

(** ** The groups of the grid are blocks *)

Section BlockFacts.

Lemma filter_all {A} (P : A -> Prop) `{!forall a, Decision (P a)} (l : list A) :
  (forall a, a ∈ l -> P a) -> filter P l = l.
Proof.
  induction l as [|a l IH]; [done|]. intros Hl.
  rewrite filter_cons_True by (apply Hl; by left).
  f_equal. apply IH. intros a' Ha'. apply Hl. by right.
Qed.

Lemma filter_none {A} (P : A -> Prop) `{!forall a, Decision (P a)} (l : list A) :
  (forall a, a ∈ l -> ~ P a) -> filter P l = [].
Proof.
  induction l as [|a l IH]; [done|]. intros Hl.
  rewrite filter_cons_False by (apply Hl; by left).
  apply IH. intros a' Ha'. apply Hl. by right.
Qed.

(** The columns (or rows) whose clipped size is [w] are consecutive, and
    there is more than one of them only when [w] is the full side. *)
Lemma clipped_run (L S w : Z) :
  0 < L -> 0 < S ->
  exists c0 n,
    filter (fun c => Z.min S (L - c * S) = w) (seqZ 0 (ceil_div L S)) = seqZ c0 n
    /\ 0 <= c0 /\ 0 <= n /\ (n <= 1 \/ w = S).
Proof.
  intros HL HS. pose proof (ceil_div_bounds L S HS) as HC.
  set (C := ceil_div L S) in *.
  assert (Hseq : seqZ 0 C = seqZ 0 (C - 1) ++ [C - 1]).
  { replace C with ((C - 1) + 1) at 1 by lia.
    rewrite seqZ_app by nia. by rewrite Z.add_0_l. }
  rewrite Hseq, filter_app.
  assert (Hfull : forall c, c ∈ seqZ 0 (C - 1) -> Z.min S (L - c * S) = S).
  { intros c Hc. apply elem_of_seqZ in Hc. nia. }
  destruct (decide (w = S)) as [->|Hw].
  - rewrite (filter_all _ (seqZ 0 (C - 1))) by done.
    destruct (decide (Z.min S (L - (C - 1) * S) = S)) as [Hlast|Hlast].
    + rewrite filter_cons_True by done. exists 0, C.
      split; [by rewrite Hseq|]. split; [done|]. split; [nia|by right].
    + rewrite filter_cons_False by done. exists 0, (C - 1).
      rewrite app_nil_r. split; [done|]. split; [done|]. split; [nia|by right].
  - rewrite (filter_none _ (seqZ 0 (C - 1)))
      by (intros c Hc; rewrite (Hfull c Hc); congruence).
    destruct (decide (Z.min S (L - (C - 1) * S) = w)) as [Hlast|Hlast].
    + rewrite filter_cons_True by done. exists (C - 1), 1.
      split; [done|]. split; [nia|]. split; [lia|]. left. lia.
    + rewrite filter_cons_False by done. exists 0, 0.
      split; [done|]. split; [done|]. split; [done|]. left. lia.
Qed.

Lemma lookup_rows_columns {A} (f : Z -> Z -> A) (Rs Cs : list Z) (i j : nat) (r c : Z) :
  Rs !! i = Some r -> Cs !! j = Some c ->
  (r ← Rs; f r <$> Cs) !! (i * length Cs + j)%nat = Some (f r c).
Proof.
  intros Hr Hc. revert i Hr. induction Rs as [|r' Rs IH]; intros i Hr; [done|].
  rewrite bind_cons. destruct i as [|i]; cbn in Hr.
  - injection Hr as ->. change (0 * length Cs + j)%nat with j.
    rewrite lookup_app_l.
    + by rewrite list_lookup_fmap, Hc.
    + rewrite length_fmap. by eapply lookup_lt_Some.
  - rewrite lookup_app_r by (rewrite length_fmap; lia).
    rewrite length_fmap.
    replace (S i * length Cs + j - length Cs)%nat with (i * length Cs + j)%nat by lia.
    by apply IH.
Qed.

(** A group of the grid: [nr] consecutive rows from [r0], and in each of
    them the [nc] consecutive columns from [c0]; several columns only at
    full width, several rows only at full height. *)
Lemma group_block (W H S : Z) squareGroups key (group : list Square.t) :
  0 < W -> 0 < H -> 0 < S ->
  imgReverser_squareGroups W H S = Returns squareGroups ->
  (key, group) ∈ squareGroups ->
  exists r0 nr c0 nc w h,
    group = (r ← seqZ r0 nr; tile W H S r <$> seqZ c0 nc)
    /\ 0 <= r0 /\ 0 < nr /\ 0 <= c0 /\ 0 < nc
    /\ (nc = 1 \/ w = S) /\ (nr = 1 \/ h = S)
    /\ forall square, square ∈ group ->
         Square.width square = w /\ Square.height square = h.
Proof.
  intros HW HH HS Hrun Hin.
  apply (group_is_bucket W H S) in Hin as (Hne & w & h & _ & Hgroup); [|lia|done].
  assert (Hdims : forall square, square ∈ group ->
            Square.width square = w /\ Square.height square = h).
  { intros square Hsq. rewrite Hgroup in Hsq. by apply list_elem_of_filter in Hsq as [? _]. }
  rewrite squares_grid in Hgroup by done. unfold grid in Hgroup.
  rewrite (filter_rows_columns (tile W H S) _
    (fun r => Z.min S (H - r * S) = h) (fun c => Z.min S (W - c * S) = w)) in Hgroup.
  2:{ intros r c. unfold tile. cbn. tauto. }
  destruct (clipped_run H S h HH HS) as (r0 & nr & Hrows & Hr0 & Hnr & Hrfull).
  destruct (clipped_run W S w HW HS) as (c0 & nc & Hcols & Hc0 & Hnc & Hcfull).
  rewrite Hrows, Hcols in Hgroup.
  exists r0, nr, c0, nc, w, h. split; [done|].
  assert (Hpos : 0 < nr /\ 0 < nc).
  { split.
    - destruct (Z.le_gt_cases nr 0); [|lia].
      rewrite (seqZ_nil r0 nr) in Hgroup by done. by subst.
    - destruct (Z.le_gt_cases nc 0); [|lia].
      rewrite (seqZ_nil c0 nc) in Hgroup by done.
      exfalso. apply Hne. rewrite Hgroup. clear.
      induction (seqZ r0 nr) as [|r l IH]; [done|]. by rewrite bind_cons, IH. }
  destruct Hpos as [Hnrpos Hncpos].
  split; [done|]. split; [done|]. split; [done|]. split; [done|].
  split; [destruct Hcfull as [?|?]; [left; lia|by right]|].
  split; [destruct Hrfull as [?|?]; [left; lia|by right]|].
  done.
Qed.

Lemma getGroup_block (W H S r0 nr c0 nc : Z) :
  0 < S -> 0 < nr -> 0 < nc ->
  exists geometry,
    getGroup (r ← seqZ r0 nr; tile W H S r <$> seqZ c0 nc) = Some geometry
    /\ Group.cols geometry = nc
    /\ Group.slices geometry = nr * nc
    /\ Group.x geometry = c0 * S
    /\ Group.y geometry = r0 * S.
Proof.
  intros HS Hnr Hnc.
  rewrite (seqZ_cons r0 nr) by done.
  set (Rs := seqZ (Z.succ r0) (Z.pred nr)).
  assert (HlenR : length (r0 :: Rs) = Z.to_nat nr).
  { cbn [length]. unfold Rs. rewrite length_seqZ. lia. }
  assert (Hr0 : r0 ∉ Rs).
  { intros Hin. apply elem_of_seqZ in Hin. lia. }
  assert (HCs : exists Cs', seqZ c0 nc = c0 :: Cs')
    by (rewrite seqZ_cons by done; eauto).
  destruct HCs as [Cs' HCs].
  pose proof (length_seqZ c0 nc) as HlenC.
  set (Cs := seqZ c0 nc) in *.
  pose proof (leading_run_rows_columns W H S r0 Rs Cs ltac:(lia) Hr0) as Hcols.
  pose proof (length_rows_columns (tile W H S) (r0 :: Rs) Cs) as Hlen.
  destruct (r ← r0 :: Rs; tile W H S r <$> Cs) as [|first rest] eqn:Hg.
  { rewrite bind_cons, HCs in Hg. discriminate. }
  assert (Hfirst : first = tile W H S r0 c0).
  { rewrite bind_cons, HCs in Hg. cbn [fmap list_fmap app] in Hg. by injection Hg as <- _. }
  unfold getGroup. rewrite getColsInGroup_leading_run.
  eexists. split; [reflexivity|].
  cbn [Group.cols Group.slices Group.x Group.y].
  rewrite Hfirst. cbn [tile Square.x Square.y]. rewrite <- Hfirst, Hlen.
  replace (Square.y first) with (r0 * S) by (by rewrite Hfirst).
  rewrite Hcols, HlenR, HlenC. repeat split; lia.
Qed.

End BlockFacts.

(** ** What the reassembly copies *)

Section CopyFacts.
Context {PRNG : Seedrandom}.

Lemma dest_rect_drawImage_call deshuffled geometry (index : nat) (square : Square.t) :
  dest_rect (drawImage_call deshuffled geometry index square) = square.
Proof. by destruct square. Qed.


(** In a block, the call for the entry [slot] reads the rectangle of the
    square at position [slot] of the block. *)
Lemma source_rect_block (W H S r0 nr c0 nc w h : Z)
    (deshuffled : list (element Z)) geometry (index : nat) (square : Square.t) (slot : Z) :
  let group := r ← seqZ r0 nr; tile W H S r <$> seqZ c0 nc in
  0 < nr -> 0 < nc ->
  (nc = 1 \/ w = S) -> (nr = 1 \/ h = S) ->
  (forall square, square ∈ group ->
     Square.width square = w /\ Square.height square = h) ->
  Group.cols geometry = nc ->
  Group.x geometry = c0 * S ->
  Group.y geometry = r0 * S ->
  square ∈ group ->
  deshuffled !! index = Some (value slot) ->
  0 <= slot < nr * nc ->
  exists src,
    group !! Z.to_nat slot = Some src
    /\ source_rect (drawImage_call deshuffled geometry index square) = Some src.
Proof.
  intros group Hnr Hnc Hcfull Hrfull Hdims Hcols Hx Hy Hsq Hslot Hrange.
  pose proof (Z.div_mod slot nc ltac:(lia)) as Hdm.
  pose proof (Z.mod_pos_bound slot nc Hnc) as Hmod.
  set (i := slot / nc) in *. set (j := slot mod nc) in *.
  assert (Hi : 0 <= i < nr) by nia.
  assert (Hsrc : group !! Z.to_nat slot = Some (tile W H S (r0 + i) (c0 + j))).
  { replace (Z.to_nat slot)
      with (Z.to_nat i * length (seqZ c0 nc) + Z.to_nat j)%nat
      by (rewrite length_seqZ; nia).
    apply lookup_rows_columns.
    - rewrite lookup_seqZ_lt by lia. f_equal. lia.
    - rewrite lookup_seqZ_lt by lia. f_equal. lia. }
  exists (tile W H S (r0 + i) (c0 + j)). split; [done|].
  destruct (Hdims _ (list_elem_of_lookup_2 _ _ _ Hsrc)) as [Hw Hh].
  destruct (Hdims _ Hsq) as [Hw' Hh'].
  unfold source_rect, drawImage_call. rewrite Hslot.
  cbn [slot_number fst snd sx sy sw sh]. rewrite Hcols, Hx, Hy, Hw', Hh'.
  fold i. replace (slot - i * nc) with j by lia.
  unfold tile in *. cbn [Square.width Square.height] in Hw, Hh.
  f_equal. f_equal; [| |congruence|congruence].
  - destruct Hcfull as [->| ->]; [|lia]. assert (j = 0) by lia. subst j. lia.
  - destruct Hrfull as [->| ->]; [|lia]. assert (i = 0) by lia. lia.
Qed.

(** The calls of one group of the grid, and what each of them reads. *)
Lemma imgReverser_group_block (W H S : Z) (seed : string)
    squareGroups key (group : list Square.t) :
  unit_draws ->
  0 < W -> 0 < H -> 0 < S ->
  imgReverser_squareGroups W H S = Returns squareGroups ->
  (key, group) ∈ squareGroups ->
  Z.of_nat (length group) < array_length_limit ->
  exists permutation geometry,
    permute (length group) seed = Some permutation
    /\ length permutation = length group
    /\ permutation ≡ₚ value <$> (Z.of_nat <$> seq 0 (length group))
    /\ imgReverser_group seed group
       = Returns (imap (drawImage_call permutation geometry) group)
    /\ forall idx square slot,
         group !! idx = Some square ->
         permutation !! idx = Some (value slot) ->
         0 <= slot < Z.of_nat (length group) ->
         exists src,
           group !! Z.to_nat slot = Some src
           /\ source_rect (drawImage_call permutation geometry idx square) = Some src.
Proof.
  intros Hunit HW HH HS Hrun Hin Hlen.
  destruct (permute_run (length group) seed Hunit Hlen)
    as (permutation & Hperm & HlenP & Hrearranged).
  destruct (group_block W H S squareGroups key group HW HH HS Hrun Hin)
    as (r0 & nr & c0 & nc & w & h & Hgroup & Hr0 & Hnr & Hc0 & Hnc
        & Hcfull & Hrfull & Hdims).
  destruct (getGroup_block W H S r0 nr c0 nc HS Hnr Hnc)
    as (geometry & Hgeo & Hcols & Hslices & Hx & Hy).
  rewrite <- Hgroup in Hgeo.
  exists permutation, geometry. split; [done|]. split; [done|]. split; [done|].
  unfold imgReverser_group. fold (permute (length group) seed).
  rewrite Hperm, Hgeo. split; [reflexivity|].
  intros idx square slot Hsq Hslot Hrange.
  assert (Hlength : Z.of_nat (length group) = nr * nc).
  { rewrite Hgroup, length_rows_columns, !length_seqZ. lia. }
  destruct (source_rect_block W H S r0 nr c0 nc w h permutation geometry idx square slot)
    as (src & Hsrc & Hrect); try done.
  - by rewrite <- Hgroup.
  - rewrite <- Hgroup. by eapply list_elem_of_lookup_2.
  - lia.
  - exists src. rewrite <- Hgroup in Hsrc. done.
Qed.

(** X10: for side length and image dimensions above zero and draws in the
    unit interval, the call issued for the square at position [idx] of a
    group copies the whole rectangle of another square of the same group,
    the one at position [permutation[idx]], onto that square. *)
Theorem reassembly_moves_squares (W H S : Z) (seed : string)
    squareGroups key (group : list Square.t) :
  unit_draws ->
  0 < W -> 0 < H -> 0 < S ->
  imgReverser_squareGroups W H S = Returns squareGroups ->
  (key, group) ∈ squareGroups ->
  Z.of_nat (length group) < array_length_limit ->
  exists permutation calls,
    permute (length group) seed = Some permutation
    /\ imgReverser_group seed group = Returns calls
    /\ forall idx square, group !! idx = Some square ->
         exists (slot : nat) src call,
           permutation !! idx = Some (value (Z.of_nat slot))
           /\ group !! slot = Some src
           /\ calls !! idx = Some call
           /\ source_rect call = Some src
           /\ dest_rect call = square.
Proof.
  intros Hunit HW HH HS Hrun Hin Hlen.
  destruct (imgReverser_group_block W H S seed squareGroups key group
              Hunit HW HH HS Hrun Hin Hlen)
    as (permutation & geometry & Hperm & HlenP & Hrearranged & Hcalls & Hsources).
  exists permutation. eexists. split; [done|]. split; [exact Hcalls|].
  intros idx square Hsq.
  destruct (permutation_slot (length group) permutation idx HlenP Hrearranged)
    as (slot & Hrange & Hslot).
  { by eapply lookup_lt_Some. }
  destruct (Hsources idx square slot Hsq Hslot Hrange) as (src & Hsrc & Hrect).
  exists (Z.to_nat slot), src. eexists.
  rewrite Z2Nat.id by lia. split; [done|]. split; [done|].
  rewrite list_lookup_imap, Hsq. cbn [fmap option_fmap option_map].
  split; [reflexivity|]. split; [done|]. apply dest_rect_drawImage_call.
Qed.


End CopyFacts.

(** ** The whole reconstruction *)

Section ImageFacts.
Context {PRNG : Seedrandom} {CANVAS : Canvas}.







End ImageFacts.

(** ** The groups of a grid *)

Section GroupCountFacts.


End GroupCountFacts.

(** ** The outcomes of the handler *)

Section HandlerFacts.
Context {PRNG : Seedrandom} {CANVAS : Canvas}.

(** X14: the handler always ends.  What it returns is a text answer with
    status 400, of the content type that a body given as a string sets, or
    the answer with status 200 and content type [image/png] whose body is
    the canvas of the size of the loaded image.
    It throws, with nothing in the handler to catch it, exactly for a POST
    request whose body parses to [null], or whose [imgURL] is truthy and
    either cannot be converted to a string or cannot be loaded. *)
Theorem handler_outcomes (req : request) :
  handler req <> Diverges
  /\ (forall resp, handler req = Returns resp ->
        (status resp = 400
         /\ content_type resp = Some "text/plain;charset=UTF-8"
         /\ exists message, body resp = text message)
        \/ (status resp = 200 /\ content_type resp = Some "image/png"
            /\ exists parsed url img buffer,
                 parsed_body req = Some parsed
                 /\ body_imgURL parsed = Returns (Some url)
                 /\ loadImage url = Some img
                 /\ body resp = data buffer
                 /\ source buffer = img
                 /\ canvas_width buffer = image_width img
                 /\ canvas_height buffer = image_height img))
  /\ (handler req = Throws
      <-> method req = "POST"
          /\ exists parsed,
               parsed_body req = Some parsed
               /\ (parsed = JNull
                   \/ exists url,
                        body_imgURL parsed = Returns (Some url)
                        /\ falsy (Some url) = false
                        /\ (toString_throws url = true \/ loadImage url = None))).
Proof.
  unfold handler.
  destruct (String.eqb_spec (method req) "POST") as [Hpost|Hother]; cbn [negb].
  2:{ split; [done|]. split.
      - intros resp [= <-]. left. cbn. eauto.
      - split; [done|]. by intros [? _]. }
  destruct (parsed_body req) as [parsed|].
  2:{ split; [done|]. split.
      - intros resp [= <-]. left. cbn. eauto.
      - split; [done|]. by intros (_ & ? & ? & _). }
  destruct (body_imgURL parsed) as [[url|]| |] eqn:Hbody; cbn [mbind outcome_bind].
  - destruct (falsy (Some url)) eqn:Hfalsy.
    { split; [done|]. split.
      - intros resp [= <-]. left. cbn. eauto.
      - split; [done|]. intros (_ & ? & [= <-] & [->|(url' & Hurl & Htruthy & _)]).
        + done.
        + rewrite Hbody in Hurl. injection Hurl as <-. congruence. }
    destruct (toString_throws url) eqn:Hstring.
    { split; [done|]. split; [done|]. split; [|done]. intros _.
      split; [done|]. exists parsed. split; [done|]. right. exists url. eauto. }
    destruct (loadImage url) as [img|] eqn:Himg.
    + destruct (imgReverser_returns url img 200 "stay" Himg ltac:(lia))
        as (buffer & -> & Hsource & Hwidth & Hheight & _).
      cbn [mbind outcome_bind]. split; [done|]. split.
      * intros resp [= <-]. right. cbn [status content_type body].
        split; [done|]. split; [done|]. exists parsed, url, img, buffer. eauto 10.
      * split; [done|]. intros (_ & ? & [= <-] & [->|(url' & Hurl & _ & [Hthrows|Hload])]).
        -- done.
        -- rewrite Hbody in Hurl. injection Hurl as <-. congruence.
        -- rewrite Hbody in Hurl. injection Hurl as <-. congruence.
    + unfold imgReverser. rewrite Himg. cbn [mbind outcome_bind].
      split; [done|]. split; [done|]. split; [|done]. intros _.
      split; [done|]. exists parsed. split; [done|]. right. exists url. eauto.
  - split; [done|]. split.
    + intros resp [= <-]. left. cbn. eauto.
    + split; [done|]. intros (_ & ? & [= <-] & [->|(url' & Hurl & _)]).
      * done.
      * congruence.
  - split; [done|]. split; [done|]. split; [|done]. intros _.
    split; [done|]. exists parsed. split; [done|]. left.
    by destruct parsed.
  - by destruct parsed.
Qed.

End HandlerFacts.

(** ** toNumber on strings *)

Section TextFacts.
Variable StringToNumber : Text.t -> spec_float.

Lemma drop_leading_padding (lead input : Text.t) :
  forallb Text.white_space lead = true ->
  Text.drop_leading (lead ++ input) = Text.drop_leading input.
Proof.
  induction lead as [|c lead IH]; [done|]. cbn [forallb app Text.drop_leading].
  intros [-> Hlead]%andb_true_iff. by apply IH.
Qed.

Lemma drop_leading_blank (input : Text.t) :
  forallb Text.white_space input = true -> Text.drop_leading input = [].
Proof.
  induction input as [|c input IH]; [done|]. cbn [forallb Text.drop_leading].
  intros [-> Hrest]%andb_true_iff. by apply IH.
Qed.

Lemma drop_leading_inked (input trail : Text.t) :
  forallb Text.white_space input = false ->
  Text.drop_leading (input ++ trail) = Text.drop_leading input ++ trail.
Proof.
  induction input as [|c input IH]; [done|]. cbn [forallb app Text.drop_leading].
  destruct (Text.white_space c); [|done]. cbn [andb]. apply IH.
Qed.

Lemma drop_trailing_padding (input trail : Text.t) :
  forallb Text.white_space trail = true ->
  Text.drop_trailing (input ++ trail) = Text.drop_trailing input.
Proof.
  intros Htrail. induction input as [|c input IH].
  - cbn [app]. destruct trail as [|c trail]; [done|].
    cbn [Text.drop_trailing]. by rewrite Htrail.
  - change ((c :: input) ++ trail) with (c :: (input ++ trail)).
    cbn [Text.drop_trailing]. rewrite IH.
    change (c :: (input ++ trail)) with ((c :: input) ++ trail).
    by rewrite forallb_app, Htrail, andb_true_r.
Qed.

Lemma trim_padding (lead input trail : Text.t) :
  forallb Text.white_space lead = true ->
  forallb Text.white_space trail = true ->
  Text.trim (lead ++ input ++ trail) = Text.trim input.
Proof.
  intros Hlead Htrail. unfold Text.trim. rewrite drop_leading_padding by done.
  destruct (forallb Text.white_space input) eqn:Hinput.
  - rewrite !drop_leading_blank; [done|done|].
    by rewrite forallb_app, Hinput, Htrail.
  - rewrite drop_leading_inked by done. by apply drop_trailing_padding.
Qed.

Lemma drop_trailing_inked (input : Text.t) (c : Z) :
  Text.white_space c = false ->
  Text.drop_trailing (input ++ [c]) = input ++ [c].
Proof.
  intros Hc. induction input as [|c' input IH].
  - cbn. by rewrite Hc.
  - change ((c' :: input) ++ [c]) with (c' :: (input ++ [c])).
    cbn [Text.drop_trailing]. rewrite IH.
    change (c' :: (input ++ [c])) with ((c' :: input) ++ [c]).
    rewrite forallb_app. cbn [forallb]. by rewrite Hc, andb_false_r.
Qed.

(** A string that neither starts nor ends with white space is left as it
    is. *)
Lemma trim_inked (first last : Z) (middle : Text.t) :
  Text.white_space first = false ->
  Text.white_space last = false ->
  Text.trim (first :: middle ++ [last]) = first :: middle ++ [last].
Proof.
  intros Hfirst Hlast. unfold Text.trim. cbn [Text.drop_leading]. rewrite Hfirst.
  by apply (drop_trailing_inked (first :: middle)).
Qed.

Lemma white_space_hex_digit (c : Z) :
  Text.hex_digit c = true -> Text.white_space c = false.
Proof.
  unfold Text.hex_digit, Text.white_space, Text.between. intros Hc.
  apply orb_false_iff. split; [|lia].
  apply bool_decide_eq_false. rewrite !elem_of_cons, elem_of_nil. lia.
Qed.

Lemma nonempty_snoc {A} (l : list A) :
  l <> [] -> exists init last, l = init ++ [last].
Proof.
  destruct l as [|a l] using rev_ind; [done|]. intros _. by exists l, a.
Qed.

Lemma digits_prefix_digits (radix : Z) (digits : list Z) :
  radix <= 10 ->
  Forall (fun d => 0 <= d < radix) digits ->
  Text.digits_prefix radix ((fun d => 48 + d) <$> digits) = digits.
Proof.
  intros Hradix. induction 1 as [|d digits Hd _ IH]; [done|].
  cbn [fmap list_fmap Text.digits_prefix]. fold (fmap (M := list) (fun d => 48 + d)).
  unfold Text.digit_value, Text.between.
  destruct (Z.leb_spec 48 (48 + d)); [|lia].
  destruct (Z.leb_spec (48 + d) 57); [|lia]. cbn [andb].
  replace (48 + d - 48) with d by lia.
  destruct (Z.ltb_spec d radix); [|lia]. by rewrite IH.
Qed.

(** [parseInt] on a string of digits of a radix up to ten. *)
Lemma parseInt_digits (radix : Z) (digits : list Z) :
  2 <= radix <= 10 ->
  digits <> [] ->
  Forall (fun d => 0 <= d < radix) digits ->
  Text.parseInt ((fun d => 48 + d) <$> digits) radix
  = Number.of_Z (Text.positional radix digits).
Proof.
  intros Hradix Hne Hdigits. unfold Text.parseInt.
  destruct digits as [|d digits]; [done|].
  rewrite <- (digits_prefix_digits radix (d :: digits)) at 2 by (lia || done).
  apply Forall_cons in Hdigits as [Hd Hdigits].
  cbn [fmap list_fmap Text.drop_leading].
  fold (fmap (M := list) (fun d => 48 + d)).
  rewrite white_space_hex_digit
    by (unfold Text.hex_digit, Text.between; lia).
  destruct (Z.eqb_spec (48 + d) 45); [lia|].
  destruct (Z.eqb_spec (48 + d) 43); [lia|].
  destruct (Z.eqb_spec radix 0); [lia|].
  destruct (Z.ltb_spec radix 2); [lia|].
  destruct (Z.ltb_spec 36 radix); [lia|].
  destruct (Z.eqb_spec radix 16); [lia|]. cbn [negb andb orb].
  change (48 + d :: ((fun d => 48 + d) <$> digits))
    with ((fun d => 48 + d) <$> d :: digits).
  rewrite !digits_prefix_digits by (lia || by constructor).
  destruct (Z.eqb_spec (Text.positional radix (d :: digits)) 0) as [->|]; done.
Qed.

(** X15: a binary or octal literal, [0b] or [0o] in either case followed
    by at least one digit of the radix, with any white space around it,
    converts to the double nearest to the integer that the digits write. *)
Theorem toNumber_binary_octal (lead trail : Text.t) (marker radix : Z)
    (digits : list Z) :
  forallb Text.white_space lead = true ->
  forallb Text.white_space trail = true ->
  (marker, radix) ∈ [(98, 2); (66, 2); (111, 8); (79, 8)] ->
  digits <> [] ->
  Forall (fun d => 0 <= d < radix) digits ->
  Text.toNumber StringToNumber
    (lead ++ 48 :: marker :: ((fun d => 48 + d) <$> digits) ++ trail)
  = Number.of_Z (Text.positional radix digits).
Proof.
  intros Hlead Htrail Hmarker Hne Hdigits. unfold Text.toNumber.
  set (chars := (fun d => 48 + d) <$> digits).
  change (lead ++ 48 :: marker :: chars ++ trail)
    with (lead ++ (48 :: marker :: chars) ++ trail).
  rewrite trim_padding by done.
  assert (Hradix : radix = 2 \/ radix = 8).
  { rewrite !elem_of_cons, elem_of_nil in Hmarker.
    destruct Hmarker as [[=]|[[=]|[[=]|[[=]|[]]]]]; lia. }
  assert (Hchars : Forall (fun c => 48 <= c < 48 + radix) chars).
  { unfold chars. apply Forall_fmap. eapply Forall_impl; [exact Hdigits|].
    intros d Hd. unfold compose. cbn beta in Hd. lia. }
  assert (Htrim : Text.trim (48 :: marker :: chars) = 48 :: marker :: chars).
  { destruct (nonempty_snoc chars) as (init & last & Hsnoc).
    { unfold chars. by destruct digits. }
    rewrite Hsnoc. apply (trim_inked 48 last (marker :: init)); [done|].
    rewrite Hsnoc in Hchars. apply Forall_app in Hchars as [_ Hlast].
    rewrite Forall_singleton in Hlast.
    apply white_space_hex_digit. unfold Text.hex_digit, Text.between. lia. }
  rewrite Htrim. cbn [drop].
  assert (Hshape : exists c rest, chars = c :: rest).
  { unfold chars. destruct digits as [|d rest]; [done|]. by eexists _, _. }
  destruct Hshape as (c & rest & Hshape).
  assert (Hall : forall high, 48 + radix - 1 <= high ->
            forallb (Text.between 48 high) chars = true).
  { intros high Hhigh. apply forallb_forall. intros c' Hc'.
    apply list_elem_of_In in Hc'. rewrite Forall_forall in Hchars.
    apply Hchars in Hc'. cbn beta in Hc'. unfold Text.between. lia. }
  rewrite !elem_of_cons, elem_of_nil in Hmarker.
  unfold Text.isBinary, Text.isOctal. rewrite Hshape, <- Hshape.
  destruct Hmarker as [[= -> ->]|[[= -> ->]|[[= -> ->]|[[= -> ->]|[]]]]];
    cbn [Z.eqb Pos.eqb andb orb];
    rewrite ?(Hall 49) by lia; rewrite ?(Hall 55) by lia; cbn [andb orb];
    apply parseInt_digits; (lia || done).
Qed.

(** X16: a hexadecimal literal with a sign in front, with any white space
    around it, converts to [NaN], whatever [Number] would make of it. *)
Theorem toNumber_signed_hex (lead trail : Text.t) (sign x : Z) (digits : Text.t) :
  forallb Text.white_space lead = true ->
  forallb Text.white_space trail = true ->
  sign ∈ [45; 43] ->
  x ∈ [120; 88] ->
  digits <> [] ->
  forallb Text.hex_digit digits = true ->
  Text.toNumber StringToNumber (lead ++ sign :: 48 :: x :: digits ++ trail)
  = S754_nan.
Proof.
  intros Hlead Htrail Hsign Hx Hne Hdigits. unfold Text.toNumber.
  change (lead ++ sign :: 48 :: x :: digits ++ trail)
    with (lead ++ (sign :: 48 :: x :: digits) ++ trail).
  rewrite trim_padding by done.
  assert (Htrim : Text.trim (sign :: 48 :: x :: digits) = sign :: 48 :: x :: digits).
  { destruct (nonempty_snoc digits Hne) as (init & last & ->).
    apply (trim_inked sign last (48 :: x :: init)).
    - rewrite !elem_of_cons, elem_of_nil in Hsign. by destruct Hsign as [->|[->|[]]].
    - rewrite forallb_app in Hdigits. apply andb_true_iff in Hdigits as [_ Hlast].
      cbn [forallb] in Hlast. rewrite andb_true_r in Hlast.
      by apply white_space_hex_digit. }
  rewrite Htrim. clear Htrim. destruct digits as [|d rest]; [done|].
  rewrite !elem_of_cons, elem_of_nil in Hsign, Hx.
  assert (Hnot : Text.isBinary (sign :: 48 :: x :: d :: rest) = false
                 /\ Text.isOctal (sign :: 48 :: x :: d :: rest) = false).
  { unfold Text.isBinary, Text.isOctal. by destruct Hsign as [->|[->|[]]]. }
  destruct Hnot as [-> ->]. cbn [orb].
  unfold Text.isSignedHex. rewrite Hdigits.
  by destruct Hsign as [->|[->|[]]], Hx as [->|[->|[]]].
Qed.

(** X17: white space in front of a string and after it does not change the
    result. *)
Theorem toNumber_ignores_padding (lead input trail : Text.t) :
  forallb Text.white_space lead = true ->
  forallb Text.white_space trail = true ->
  Text.toNumber StringToNumber (lead ++ input ++ trail)
  = Text.toNumber StringToNumber input.
Proof.
  intros Hlead Htrail. unfold Text.toNumber. by rewrite trim_padding.
Qed.

End TextFacts.

(** ** The further theorems on examples *)

Lemma baseRange_lookup_witness :
  safe_integer 1 /\ safe_integer 10 /\ safe_integer 3 /\ safe_integer (10 - 1)
  /\ Z.of_nat (Z.to_nat (Z.max (ceil_div (10 - 1) (if 3 =? 0 then 1 else 3)) 0))
     < array_length_limit
  /\ length (baseRange 1 10 3 true) = 3%nat
  /\ ((1 < 3)%nat ->
      baseRange 1 10 3 true !! 1%nat
      = Some (if true then 1 + (Z.of_nat 3 - 1 - Z.of_nat 1) * 3
              else 1 + Z.of_nat 1 * 3)).
Proof.
  assert (Hsafe : forall z, Z.abs z <= 10 -> safe_integer z)
    by (unfold safe_integer; lia).
  split; [apply Hsafe; lia|]. split; [apply Hsafe; lia|].
  split; [apply Hsafe; lia|]. split; [apply Hsafe; lia|].
  split; [reflexivity|].
  apply (baseRange_lookup 1 10 3 true 1);
    [apply Hsafe; lia|apply Hsafe; lia|apply Hsafe; lia|apply Hsafe; lia
    |reflexivity].
Defined.

Lemma createRange_elem_of_witness :
  3 <> 0
  /\ safe_integer 1 /\ safe_integer 10 /\ safe_integer 3 /\ safe_integer (10 - 1)
  /\ ceil_div (10 - 1) 3 < array_length_limit
  /\ (7 ∈ createRange 1 (Some 10) (Some 3)
      <-> exists i : Z, 0 <= i /\ 7 = 1 + i * 3
                        /\ if 0 <? 3 then 7 < 10 else 10 < 7).
Proof.
  assert (Hsafe : forall z, Z.abs z <= 10 -> safe_integer z)
    by (unfold safe_integer; lia).
  split; [lia|].
  split; [apply Hsafe; lia|]. split; [apply Hsafe; lia|].
  split; [apply Hsafe; lia|]. split; [apply Hsafe; lia|].
  split; [reflexivity|].
  apply (createRange_elem_of 1 10 3 7);
    [lia|apply Hsafe; lia|apply Hsafe; lia|apply Hsafe; lia|apply Hsafe; lia
    |reflexivity].
Defined.

Lemma createRange_one_argument_witness :
  Z.abs (-3) < array_length_limit
  /\ createRange (-3) None None
     = if 0 <? -3 then seqZ 0 (-3) else Z.opp <$> seqZ 0 (- -3).
Proof.
  split; [reflexivity|]. apply (createRange_one_argument (-3)). reflexivity.
Defined.

Lemma createRange_zero_step_witness :
  5 - 2 < array_length_limit
  /\ createRange 2 (Some 5) (Some 0) = replicate (Z.to_nat (5 - 2)) 2.
Proof.
  split; [reflexivity|]. apply (createRange_zero_step 2 5). reflexivity.
Defined.

Lemma unShuffle_rearranges_witness :
  @unit_draws example_seedrandom
  /\ Z.of_nat (length [10; 20; 30]) < array_length_limit
  /\ exists result,
      @unShuffle example_seedrandom Z (an_array [10; 20; 30]) "stay"
      = Some (@draws example_seedrandom (length [10; 20; 30]) (seedrandom "stay"),
              result)
      /\ result ≡ₚ value <$> [10; 20; 30].
Proof.
  split; [exact example_unit_draws|]. split; [reflexivity|].
  apply (@unShuffle_rearranges example_seedrandom Z [10; 20; 30] "stay"
           example_unit_draws).
  reflexivity.
Defined.

Lemma randomIndex_valid_witness :
  let r := S754_finite false 4503599627370496 (-53) in
  let indexArray := [0; 1; 2]%nat in
  Number.unit_interval r = true
  /\ indexArray <> []
  /\ Z.of_nat (length indexArray) < array_length_limit
  /\ exists k : nat,
      randomIndex r indexArray = Number.Int (Z.of_nat k)
      /\ (k < length indexArray)%nat
      /\ array_get indexArray (randomIndex r indexArray) = indexArray !! k
      /\ splice1 indexArray (randomIndex r indexArray) = delete k indexArray
      /\ length (splice1 indexArray (randomIndex r indexArray))
         = (length indexArray - 1)%nat.
Proof.
  intros r indexArray.
  split; [reflexivity|]. split; [discriminate|]. split; [reflexivity|].
  apply (randomIndex_valid r indexArray); [reflexivity|discriminate|reflexivity].
Defined.

Lemma reassembly_moves_squares_witness :
  let squareGroups :=
    [ ("200-200", [Square.mk 0 0 200 200; Square.mk 200 0 200 200]);
      ("200-100", [Square.mk 0 200 200 100; Square.mk 200 200 200 100]) ] in
  let group := [Square.mk 0 200 200 100; Square.mk 200 200 200 100] in
  @unit_draws example_seedrandom
  /\ 0 < 400 /\ 0 < 300 /\ 0 < 200
  /\ imgReverser_squareGroups 400 300 200 = Returns squareGroups
  /\ ("200-100", group) ∈ squareGroups
  /\ Z.of_nat (length group) < array_length_limit
  /\ exists permutation calls,
      @permute example_seedrandom (length group) "stay" = Some permutation
      /\ @imgReverser_group example_seedrandom "stay" group = Returns calls
      /\ forall idx square, group !! idx = Some square ->
           exists (slot : nat) src call,
             permutation !! idx = Some (value (Z.of_nat slot))
             /\ group !! slot = Some src
             /\ calls !! idx = Some call
             /\ source_rect call = Some src
             /\ dest_rect call = square.
Proof.
  intros squareGroups group.
  assert (Hin : ("200-100", group) ∈ squareGroups) by (right; left).
  split; [exact example_unit_draws|].
  split; [lia|]. split; [lia|]. split; [lia|].
  split; [reflexivity|]. split; [exact Hin|]. split; [reflexivity|].
  apply (@reassembly_moves_squares example_seedrandom 400 300 200 "stay"
           squareGroups "200-100" group example_unit_draws);
    [lia|lia|lia|reflexivity|exact Hin|reflexivity].
Defined.




Lemma toNumber_binary_octal_witness :
  let StringToNumber := fun _ : Text.t => S754_nan in
  forallb Text.white_space [32] = true
  /\ forallb Text.white_space [10] = true
  /\ (98, 2) ∈ [(98, 2); (66, 2); (111, 8); (79, 8)]
  /\ [1; 0; 1] <> []
  /\ Forall (fun d => 0 <= d < 2) [1; 0; 1]
  /\ Text.toNumber StringToNumber
       ([32] ++ 48 :: 98 :: ((fun d => 48 + d) <$> [1; 0; 1]) ++ [10])
     = Number.of_Z (Text.positional 2 [1; 0; 1]).
Proof.
  intros StringToNumber.
  assert (Hdigits : Forall (fun d => 0 <= d < 2) [1; 0; 1])
    by (repeat constructor; lia).
  assert (Hmarker : (98, 2) ∈ [(98, 2); (66, 2); (111, 8); (79, 8)]) by left.
  split; [reflexivity|]. split; [reflexivity|]. split; [exact Hmarker|].
  split; [discriminate|]. split; [exact Hdigits|].
  apply (toNumber_binary_octal StringToNumber [32] [10] 98 2 [1; 0; 1]);
    [reflexivity|reflexivity|exact Hmarker|discriminate|exact Hdigits].
Defined.

Lemma toNumber_signed_hex_witness :
  let StringToNumber := fun _ : Text.t => S754_zero false in
  forallb Text.white_space [32] = true
  /\ forallb Text.white_space [] = true
  /\ 45 ∈ [45; 43]
  /\ 120 ∈ [120; 88]
  /\ [49; 102] <> []
  /\ forallb Text.hex_digit [49; 102] = true
  /\ Text.toNumber StringToNumber ([32] ++ 45 :: 48 :: 120 :: [49; 102] ++ [])
     = S754_nan.
Proof.
  intros StringToNumber.
  assert (Hsign : 45 ∈ [45; 43]) by left.
  assert (Hx : 120 ∈ [120; 88]) by left.
  split; [reflexivity|]. split; [reflexivity|]. split; [exact Hsign|].
  split; [exact Hx|]. split; [discriminate|]. split; [reflexivity|].
  apply (toNumber_signed_hex StringToNumber [32] [] 45 120 [49; 102]);
    [reflexivity|reflexivity|exact Hsign|exact Hx|discriminate|reflexivity].
Defined.

Lemma toNumber_ignores_padding_witness :
  let StringToNumber := fun _ : Text.t => S754_zero false in
  forallb Text.white_space [32; 9] = true
  /\ forallb Text.white_space [10] = true
  /\ Text.toNumber StringToNumber ([32; 9] ++ [49; 50] ++ [10])
     = Text.toNumber StringToNumber [49; 50].
Proof.
  intros StringToNumber.
  split; [reflexivity|]. split; [reflexivity|].
  apply (toNumber_ignores_padding StringToNumber [32; 9] [49; 50] [10]);
    reflexivity.
Defined.
